(** * Multi-agent ant-colony route planner (algorithms/ACO_runner.py)

    A shallow embedding of the class [ACO_MultiAgent]: the next-cell rule
    [choose_next], the two-leg route construction [build_route_single], the
    multi-agent pass [build_solution_multi], the scorer [score_solution], the
    pheromone update ([evaporate], [reinforce]) and the optimisation loop [run].

    Python floats are kept behind the interface [Arith], so that every
    structural statement holds for any arithmetic; two instances are given,
    exact rationals and IEEE binary64 (the kernel's primitive floats).  The
    module [random] is the interface [RandomSource], and the names imported
    from [ga_core] (not part of the sources) are the interface [GaCore]. *)

From Stdlib Require Import ZArith QArith Qround Lqa PrimFloat Uint63.
From stdpp Require Import gmap list relations.

(** ** Data model *)

(** A grid cell [(row, col)]. *)
Definition node : Type := Z * Z.

(** A route: the list of [(timestep, node)] pairs [build_route_single] appends. *)
Definition route : Type := list (nat * node).

(** The exceptions the modelled code can raise. *)
Inductive exn : Type :=
| IndexError
| KeyError.

(** Outcome of a computation: a value, an exception, or a [while] loop that
    was still running when the step budget of the model ran out. *)
Inductive result (X : Type) : Type :=
| Ok (x : X)
| Raise (e : exn)
| OutOfFuel.
Arguments Ok {X} x.
Arguments Raise {X} e.
Arguments OutOfFuel {X}.

(** ** Interfaces *)

(** The float operations the program uses.  [of_Z] is the conversion of a
    Python [int] that meets a float ([0], [1], [len(conflicts)]); [c_0_01],
    [c_1e_4] and [c_1e_9] are the literals [0.01], [0.0001] and [1e-9];
    [lt_inf x] is the test [x < float("inf")].  The operations are total:
    the [ZeroDivisionError] of a division by zero is not part of the model,
    so a statement that a computation returns names the divisor it needs
    to be non-zero. *)
Class Arith : Type := {
  num : Type;
  of_Z : Z -> num;
  c_0_01 : num;
  c_1e_4 : num;
  c_1e_9 : num;
  add : num -> num -> num;
  sub : num -> num -> num;
  mul : num -> num -> num;
  div : num -> num -> num;
  eqb : num -> num -> bool;
  ltb : num -> num -> bool;
  leb : num -> num -> bool;
  lt_inf : num -> bool
}.

(** The power operator [x ** y] on floats. *)
Class Power (A : Arith) : Type := pow : num -> num -> num.

(** The module [random]: the generator state, [random.random()] and the
    helper [_randbelow(n)] that [random.choice] indexes with. *)
Class RandomSource (A : Arith) : Type := {
  rng : Type;
  random_random : rng -> num * rng;
  randbelow : nat -> rng -> nat * rng
}.

(** The names imported from [ga_core]: the two move costs and the conflict
    detector, which returns the list of conflicts and the minimum distance. *)
Class GaCore (A : Arith) : Type := {
  MOVE_DIAG : num;
  MOVE_ORTH : num;
  conflict : Type;
  detect_conflicts : list (list node) -> list conflict * num
}.

(** The incumbent score of [run]: [float("inf")] until a first improvement. *)
Inductive score (A : Arith) : Type :=
| Inf
| Fin (x : num).
Arguments Inf {A}.
Arguments Fin {A} x.

(** The object [self].  [G] is the graph [create_graph(env)] returned, each
    node with its neighbours in iteration order. *)
Record ACO_MultiAgent (A : Arith) : Type := mkACO {
  G : gmap node (list node);
  starts : list node;
  pickups : list node;
  drops : list node;
  alpha : num;
  beta : num;
  rho : num;
  Q : num;
  num_ants : Z;
  iterations : Z;
  MIN_SEP : num;
  w_dist : num;
  w_conf : num;
  verbose : bool;
  pheromone : gmap (node * node) num;
  num_agents : nat
}.
Arguments mkACO {A}.
Arguments G {A}.
Arguments starts {A}.
Arguments pickups {A}.
Arguments drops {A}.
Arguments alpha {A}.
Arguments beta {A}.
Arguments rho {A}.
Arguments Q {A}.
Arguments num_ants {A}.
Arguments iterations {A}.
Arguments MIN_SEP {A}.
Arguments w_dist {A}.
Arguments w_conf {A}.
Arguments verbose {A}.
Arguments pheromone {A}.
Arguments num_agents {A}.

(** [self.pheromone = ph]. *)
Definition set_pheromone {A : Arith} (ph : gmap (node * node) num)
    (self : ACO_MultiAgent A) : ACO_MultiAgent A :=
  mkACO (G self) (starts self) (pickups self) (drops self) (alpha self)
    (beta self) (rho self) (Q self) (num_ants self) (iterations self)
    (MIN_SEP self) (w_dist self) (w_conf self) (verbose self) ph
    (num_agents self).

(** The two constructor parameters that no method reads. *)
Definition set_unused {A : Arith} (min_sep wdist : num)
    (self : ACO_MultiAgent A) : ACO_MultiAgent A :=
  mkACO (G self) (starts self) (pickups self) (drops self) (alpha self)
    (beta self) (rho self) (Q self) (num_ants self) (iterations self)
    min_sep wdist (w_conf self) (verbose self) (pheromone self)
    (num_agents self).

(** ** The planner *)

Section Planner.
Context {A : Arith} {P : Power A} {R : RandomSource A} {C : GaCore A}.

(** Computations over the object and the random generator. *)
Definition M (X : Type) : Type :=
  ACO_MultiAgent A -> rng -> result (X * ACO_MultiAgent A * rng).

Definition ret {X : Type} (x : X) : M X := fun self g => Ok (x, self, g).

Definition bind {X Y : Type} (m : M X) (k : X -> M Y) : M Y :=
  fun self g =>
    match m self g with
    | Ok (x, self', g') => k x self' g'
    | Raise e => Raise e
    | OutOfFuel => OutOfFuel
    end.

Definition raise {X : Type} (e : exn) : M X := fun _ _ => Raise e.

Definition out_of_fuel {X : Type} : M X := fun _ _ => OutOfFuel.

Definition get_self : M (ACO_MultiAgent A) := fun self g => Ok (self, self, g).

Notation "'do' x <- m ; k" := (bind m (fun x => k))
  (at level 10, x pattern, m at level 100, k at level 200).

(** [seq[i]] on a list: [IndexError] out of range. *)
Definition index {X : Type} (l : list X) (i : nat) : M X :=
  match l !! i with
  | Some x => ret x
  | None => raise IndexError
  end.

(** [self.G[u]]: [KeyError] when [u] is not a node of the graph. *)
Definition G_get (u : node) : M (list node) :=
  do self <- get_self;
  match G self !! u with
  | Some vecinos => ret vecinos
  | None => raise KeyError
  end.

(** [self.pheromone[k]] on the [defaultdict]: a missing key is inserted with
    the default [0.01] by the read. *)
Definition pheromone_get (k : node * node) : M num :=
  fun self g =>
    match pheromone self !! k with
    | Some tau => Ok (tau, self, g)
    | None => Ok (c_0_01, set_pheromone (<[k := c_0_01]> (pheromone self)) self, g)
    end.

(** [random.random()]. *)
Definition random : M num :=
  fun self g => let '(r, g') := random_random g in Ok (r, self, g').

(** [random.choice(seq)]: [IndexError] on an empty sequence. *)
Definition random_choice {X : Type} (l : list X) : M X :=
  match l with
  | [] => raise IndexError
  | _ :: _ =>
      fun self g =>
        let '(i, g') := randbelow (length l) g in
        match l !! i with
        | Some x => Ok (x, self, g')
        | None => Raise IndexError
        end
  end.

(** [dist(a, b)]. *)
Definition dist (a b : node) : num :=
  let dy := Z.abs (a.1 - b.1) in
  let dx := Z.abs (a.2 - b.2) in
  if (dy + dx =? 2)%Z then MOVE_DIAG else MOVE_ORTH.

(** The temporal penalty of [choose_next]. *)
Definition penal (timestep : nat) (ocupacion : gmap (nat * node) bool)
    (v : node) : num :=
  if bool_decide (is_Some (ocupacion !! (timestep, v))) then c_1e_4 else of_Z 1.

(** One weight of [choose_next]: [penal * ((tau ** alpha) * (eta ** beta))]
    with [eta = 1.0 / (dist(u, v) + 1e-9)]. *)
Definition weight (self : ACO_MultiAgent A) (pen tau : num) (u v : node) : num :=
  let eta := div (of_Z 1) (add (dist u v) c_1e_9) in
  mul pen (mul (pow tau (alpha self)) (pow eta (beta self))).

(** The first loop of [choose_next]: the weights [probs] and their sum. *)
Fixpoint choose_weights (u : node) (timestep : nat)
    (ocupacion : gmap (nat * node) bool) (vecinos : list node)
    (probs : list num) (total : num) : M (list num * num) :=
  match vecinos with
  | [] => ret (probs, total)
  | v :: rest =>
      do tau <- pheromone_get (u, v);
      do self <- get_self;
      let val := weight self (penal timestep ocupacion v) tau u v in
      choose_weights u timestep ocupacion rest (probs ++ [val]) (add total val)
  end.

(** The second loop of [choose_next]: the first neighbour whose cumulated
    probability reaches the draw [r]. *)
Fixpoint choose_pick (r acc : num) (vps : list (node * num)) : option node :=
  match vps with
  | [] => None
  | (v, p) :: rest =>
      let acc := add acc p in
      if leb r acc then Some v else choose_pick r acc rest
  end.

(** [choose_next(u, timestep, ocupacion)].  With no neighbour [total] is
    still the integer [0], so [total == 0] is the integer test and holds. *)
Definition choose_next (u : node) (timestep : nat)
    (ocupacion : gmap (nat * node) bool) : M node :=
  do vecinos <- G_get u;
  do (probs, total) <- choose_weights u timestep ocupacion vecinos [] (of_Z 0);
  if match vecinos with [] => true | _ :: _ => eqb total (of_Z 0) end
  then random_choice vecinos
  else
    let probs := map (fun p => div p total) probs in
    do r <- random;
    match choose_pick r (of_Z 0) (zip vecinos probs) with
    | Some v => ret v
    | None => match last vecinos with
              | Some v => ret v
              | None => raise IndexError
              end
    end.

(** One [while curr != target] loop of [build_route_single]; [fuel] bounds
    the number of iterations the model follows. *)
Fixpoint walk (fuel : nat) (target curr : node) (t : nat) (ruta : route)
    (ocupacion : gmap (nat * node) bool)
    : M (nat * route * gmap (nat * node) bool) :=
  if bool_decide (curr = target) then ret (t, ruta, ocupacion)
  else
    match fuel with
    | 0 => out_of_fuel
    | S fuel' =>
        do nxt <- choose_next curr t ocupacion;
        walk fuel' target nxt (S t) (ruta ++ [(t, nxt)])
          (<[(t, nxt) := true]> ocupacion)
    end.

(** [build_route_single(start, mid, end, ocupacion)]; the dictionary
    [ocupacion] is updated in place, so it is returned with the route. *)
Definition build_route_single (fuel : nat) (start mid end_ : node)
    (ocupacion : gmap (nat * node) bool)
    : M (route * gmap (nat * node) bool) :=
  do (t, ruta, ocupacion) <- walk fuel mid start 0 [] ocupacion;
  do (t, ruta, ocupacion) <- walk fuel end_ mid t ruta ocupacion;
  ret (ruta, ocupacion).

(** The loop of [build_solution_multi] over the agents [idxs]. *)
Fixpoint build_agents (fuel : nat) (idxs : list nat) (rutas : list route)
    (ocupacion : gmap (nat * node) bool) : M (list route) :=
  match idxs with
  | [] => ret rutas
  | i :: rest =>
      do self <- get_self;
      do s <- index (starts self) i;
      do p <- index (pickups self) i;
      do d <- index (drops self) i;
      do (ruta_i, ocupacion) <- build_route_single fuel s p d ocupacion;
      build_agents fuel rest (rutas ++ [ruta_i]) ocupacion
  end.

(** [build_solution_multi()]. *)
Definition build_solution_multi (fuel : nat) : M (list route) :=
  do self <- get_self;
  build_agents fuel (seq 0 (num_agents self)) [] ∅.

(** [zip(nodos[:-1], nodos[1:])]: the consecutive pairs of a list. *)
Definition consecutive {X : Type} (nodos : list X) : list (X * X) :=
  zip (removelast nodos) (tail nodos).

(** [[n for _, n in r]]. *)
Definition nodos_of (r : route) : list node := map snd r.

(** The distance summed by the inner loop of [score_solution]. *)
Definition add_dists (total_dist : num) (pairs : list (node * node)) : num :=
  fold_left (fun acc ab => add acc (dist ab.1 ab.2)) pairs total_dist.

(** [score_solution(rutas)]: the penalised score, the distance and the
    number of conflicts. *)
Definition score_solution (self : ACO_MultiAgent A) (rutas : list route)
    : num * num * nat :=
  let total_dist :=
    fold_left (fun acc r => add_dists acc (consecutive (nodos_of r)))
      rutas (of_Z 0) in
  let '(conflicts, min_dist) := detect_conflicts (map nodos_of rutas) in
  let penalty := mul (w_conf self) (of_Z (Z.of_nat (length conflicts))) in
  (add total_dist penalty, total_dist, length conflicts).

(** [evaporate()]. *)
Definition evaporate (self : ACO_MultiAgent A) : ACO_MultiAgent A :=
  set_pheromone
    ((fun tau => mul tau (sub (of_Z 1) (rho self))) <$> pheromone self) self.

(** [pheromone[(a, b)] += dep] on the [defaultdict]. *)
Definition deposit (dep : num) (ph : gmap (node * node) num)
    (ab : node * node) : gmap (node * node) num :=
  <[ab := add (default c_0_01 (ph !! ab)) dep]> ph.

(** [reinforce(rutas, score)]. *)
Definition reinforce (self : ACO_MultiAgent A) (rutas : list route)
    (sc : num) : ACO_MultiAgent A :=
  let dep := div (Q self) (add sc c_1e_9) in
  set_pheromone
    (fold_left
       (fun ph ruta => fold_left (deposit dep) (consecutive (nodos_of ruta)) ph)
       rutas (pheromone self))
    self.

(** [candidatos.sort(key=lambda x: x[0])]: a stable sort that compares the
    keys with [<] only. *)
Fixpoint insert_by_score (c : num * list route) (l : list (num * list route))
    : list (num * list route) :=
  match l with
  | [] => [c]
  | c' :: rest =>
      if ltb c.1 c'.1 then c :: c' :: rest else c' :: insert_by_score c rest
  end.

Definition sort_by_score (l : list (num * list route)) : list (num * list route) :=
  fold_left (fun sorted c => insert_by_score c sorted) l [].

(** [score_best < best_score]. *)
Definition improves (score_best : num) (best_score : score A) : bool :=
  match best_score with
  | Inf => lt_inf score_best
  | Fin b => ltb score_best b
  end.

(** The local state of [run]: the incumbent, the lines printed when
    [verbose] is set and, as a ghost field, the candidate list of every
    iteration completed so far. *)
Record run_state : Type := mkRun {
  best_routes : option (list route);
  best_score : score A;
  printed : list (Z * num);
  history : list (list (num * list route))
}.

(** The inner loop of [run]: [n] ants, each built and scored. *)
Fixpoint build_candidates (fuel n : nat) (candidatos : list (num * list route))
    : M (list (num * list route)) :=
  match n with
  | 0 => ret candidatos
  | S n' =>
      do rutas <- build_solution_multi fuel;
      do self <- get_self;
      let '(sc, _, _) := score_solution self rutas in
      build_candidates fuel n' (candidatos ++ [(sc, rutas)])
  end.

(** The body of the outer loop of [run] for the iteration number [it]. *)
Definition iteration (fuel : nat) (it : Z) (st : run_state) : M run_state :=
  do self <- get_self;
  do candidatos <- build_candidates fuel (Z.to_nat (num_ants self)) [];
  match sort_by_score candidatos with
  | [] => raise IndexError
  | (score_best, rutas_best) :: _ =>
      fun self g =>
        let self := reinforce (evaporate self) rutas_best score_best in
        let improved := improves score_best (best_score st) in
        Ok (mkRun
              (if improved then Some rutas_best else best_routes st)
              (if improved then Fin score_best else best_score st)
              (if verbose self then printed st ++ [(it, score_best)]
               else printed st)
              (history st ++ [candidatos]),
            self, g)
  end.

(** The outer loop of [run] over the iteration numbers [its]. *)
Fixpoint run_loop (fuel : nat) (its : list Z) (st : run_state) : M run_state :=
  match its with
  | [] => ret st
  | it :: rest =>
      do st <- iteration fuel it st;
      run_loop fuel rest st
  end.

(** [range(1, iterations + 1)]. *)
Definition iteration_range (self : ACO_MultiAgent A) : list Z :=
  map (fun k => Z.of_nat (S k)) (seq 0 (Z.to_nat (iterations self))).

(** [run()] with its local state. *)
Definition run_full (fuel : nat) : M run_state :=
  do self <- get_self;
  run_loop fuel (iteration_range self) (mkRun None Inf [] []).

(** [run()]: the pair [(best_routes, best_score)] it returns. *)
Definition run (fuel : nat) : M (option (list route) * score A) :=
  do st <- run_full fuel;
  ret (best_routes st, best_score st).

End Planner.

(** [__init__]: the pheromone table holds [0.01] for every pair [(u, v)]
    with [v] in [G[u]]; [num_agents] is [len(starts)]. *)
Definition init_pheromone {A : Arith} (G : gmap node (list node))
    : gmap (node * node) num :=
  fold_left
    (fun ph uvs => fold_left (fun ph v => <[(uvs.1, v) := c_0_01]> ph) uvs.2 ph)
    (map_to_list G) ∅.

Definition init {A : Arith} (G : gmap node (list node))
    (starts pickups drops : list node) (alpha beta rho Q : num)
    (num_ants iterations : Z) (MIN_SEP w_dist w_conf : num) (verbose : bool)
    : ACO_MultiAgent A :=
  mkACO G starts pickups drops alpha beta rho Q num_ants iterations
    MIN_SEP w_dist w_conf verbose (init_pheromone G) (length starts).

(** ** Instances *)

(** Exact rational arithmetic.  [x ** y] is exact for an integral exponent
    [y] (the exponent is truncated otherwise); division by zero gives [0]
    where Python raises. *)
#[export] Instance exact : Arith := {|
  num := QArith_base.Q;
  of_Z := inject_Z;
  c_0_01 := Qmake 1 100;
  c_1e_4 := Qmake 1 10000;
  c_1e_9 := Qmake 1 1000000000;
  add x y := Qred (Qplus x y);
  sub x y := Qred (Qminus x y);
  mul x y := Qred (Qmult x y);
  div x y := Qred (Qdiv x y);
  eqb := Qeq_bool;
  ltb x y := negb (Qle_bool y x);
  leb := Qle_bool;
  lt_inf _ := true
|}.

(** Powers with an integral exponent, as the examples use them
    ([alpha = 1], [beta = 3]); a power with another exponent need not be
    rational, and the exponent is then cut to its integral part, which is
    not what [**] computes. *)
#[export] Instance exact_pow : Power exact :=
  fun x y => Qred (Qpower x (Qfloor y)).

(** IEEE binary64, the arithmetic of Python floats. *)
Definition float_of_Z (z : Z) : float :=
  match z with
  | Z0 => PrimFloat.zero
  | Zpos _ => PrimFloat.of_uint63 (Uint63.of_Z z)
  | Zneg _ => PrimFloat.opp (PrimFloat.of_uint63 (Uint63.of_Z (Z.opp z)))
  end.

#[export] Instance binary64 : Arith := {|
  num := float;
  of_Z := float_of_Z;
  c_0_01 := 0x1.47ae147ae147bp-7%float;
  c_1e_4 := 0x1.a36e2eb1c432dp-14%float;
  c_1e_9 := 0x1.12e0be826d695p-30%float;
  add := PrimFloat.add;
  sub := PrimFloat.sub;
  mul := PrimFloat.mul;
  div := PrimFloat.div;
  eqb := PrimFloat.eqb;
  ltb := PrimFloat.ltb;
  leb := PrimFloat.leb;
  lt_inf x := PrimFloat.ltb x PrimFloat.infinity
|}.

(** A scripted random source: the draws of [random.random()] and of
    [_randbelow] are read off two lists ([0] once a list is used up). *)
#[export] Instance scripted (A : Arith) : RandomSource A := {|
  rng := list num * list nat;
  random_random g :=
    match g.1 with
    | [] => (of_Z 0, g)
    | r :: rs => (r, (rs, g.2))
    end;
  randbelow n g :=
    match g.2 with
    | [] => (0, g)
    | k :: ks => (k mod n, (g.1, ks))
    end
|}.

(** Modelled from the spec: the conflict detector of [ga_core], which is not
    part of the sources.  An agent stays parked at its last node; a conflict
    is a pair of agents [(i, j)], [i < j], on the same node at the same
    timestep.  The second component (minimum separation, read by no method
    of this class) is the smallest grid distance between two agents. *)
Definition position (r : list node) (t : nat) : option node :=
  match r !! t with
  | Some n => Some n
  | None => last r
  end.

Definition meet (r1 r2 : list node) (t : nat) : bool :=
  match position r1 t, position r2 t with
  | Some a, Some b => bool_decide (a = b)
  | _, _ => false
  end.

Definition grid_distance (r1 r2 : list node) (t : nat) : option Z :=
  match position r1 t, position r2 t with
  | Some a, Some b => Some (Z.max (Z.abs (a.1 - b.1)) (Z.abs (a.2 - b.2)))
  | _, _ => None
  end.

Definition agent_pairs (rutas : list (list node)) : list (nat * nat) :=
  let n := length rutas in
  i ← seq 0 n; j ← seq (S i) (n - S i); [(i, j)].

Definition horizon (rutas : list (list node)) : list nat :=
  seq 0 (foldr Nat.max 0 (map length rutas)).

Definition spec_detect_conflicts {A : Arith} (rutas : list (list node))
    : list (nat * nat) * num :=
  let at_ (i : nat) := default [] (rutas !! i) in
  let conflicts :=
    filter (fun ij => existsb (meet (at_ ij.1) (at_ ij.2)) (horizon rutas) = true)
      (agent_pairs rutas) in
  let dists :=
    ij ← agent_pairs rutas; t ← horizon rutas;
    match grid_distance (at_ ij.1) (at_ ij.2) t with
    | Some d => [d]
    | None => []
    end in
  (conflicts, of_Z (foldr Z.min (default 0%Z (head dists)) dists)).

(** Modelled from the spec: the move costs of [ga_core], orthogonal [1] and
    diagonal [1.41] (the spec only asks diagonal > orthogonal). *)
#[export] Instance exact_core : GaCore exact :=
  Build_GaCore exact (Qmake 141 100) (inject_Z 1) (nat * nat)
    spec_detect_conflicts.

#[export] Instance binary64_core : GaCore binary64 :=
  Build_GaCore binary64 0x1.68f5c28f5c28fp+0%float PrimFloat.one (nat * nat)
    spec_detect_conflicts.

(** ** Example worlds *)

Definition a0 : node := (0, 0)%Z.
Definition b0 : node := (0, 1)%Z.
Definition c0 : node := (5, 5)%Z.

(** A corridor of two cells and an isolated free cell. *)
Definition corridor : gmap node (list node) :=
  <[a0 := [b0]]> (<[b0 := [a0]]> (<[c0 := []]> ∅)).

(** The fully free 2 x 2 grid. *)
Definition square : gmap node (list node) :=
  <[(0,0)%Z := [(0,1); (1,0); (1,1)]%Z]>
  (<[(0,1)%Z := [(0,0); (1,0); (1,1)]%Z]>
  (<[(1,0)%Z := [(0,0); (0,1); (1,1)]%Z]>
  (<[(1,1)%Z := [(0,0); (0,1); (1,0)]%Z]> ∅))).

Definition exact_aco (G : gmap node (list node)) (starts pickups drops : list node)
    (num_ants iterations : Z) : ACO_MultiAgent exact :=
  @init exact G starts pickups drops (inject_Z 1) (inject_Z 3) (Qmake 1 10) (inject_Z 10)
    num_ants iterations (inject_Z 6) (inject_Z 1) (inject_Z 1000) true.

Definition seed0 : @rng exact (scripted exact) :=
  ([Qmake 1 2; Qmake 9 10; Qmake 1 10; Qmake 3 4; Qmake 1 3; Qmake 99 100], []).

(** ** Route construction: general facts *)

(** [v] is listed among the neighbours of [u]. *)
Definition edge (G : gmap node (list node)) (u v : node) : Prop :=
  ∃ vecinos, G !! u = Some vecinos ∧ v ∈ vecinos.

(** Every step of the walk [u, l] follows an edge of the graph. *)
Fixpoint chain (G : gmap node (list node)) (u : node) (l : list node) : Prop :=
  match l with
  | [] => True
  | v :: l' => edge G u v ∧ chain G v l'
  end.

(** The entries [ocupacion[(t, nxt)] = True] written for the steps. *)
Definition claim_all (steps : route) (ocupacion : gmap (nat * node) bool)
    : gmap (nat * node) bool :=
  fold_left (fun oc k => <[k := true]> oc) steps ocupacion.

(** [s'] is [s] up to the pheromone table. *)
Definition frame {A : Arith} (s s' : ACO_MultiAgent A) : Prop :=
  s' = set_pheromone (pheromone s') s.

Section RouteFacts.
Context {A : Arith} {P : Power A} {R : RandomSource A} {C : GaCore A}.

Lemma frame_refl (s : ACO_MultiAgent A) : frame s s.
Proof. by destruct s. Qed.

Lemma frame_trans (s1 s2 s3 : ACO_MultiAgent A) :
  frame s1 s2 → frame s2 s3 → frame s1 s3.
Proof.
  unfold frame. intros H12 H23. rewrite H23 at 1. rewrite H12. by destruct s1.
Qed.

Lemma frame_set (ph : gmap (node * node) num) (s : ACO_MultiAgent A) :
  frame s (set_pheromone ph s).
Proof. by destruct s. Qed.

Lemma frame_G (s s' : ACO_MultiAgent A) : frame s s' → G s' = G s.
Proof. intros ->. by destruct s. Qed.

Lemma bind_Ok {X Y : Type} (m : M X) (k : X → M Y) s g r :
  bind m k s g = Ok r →
  ∃ x s1 g1, m s g = Ok (x, s1, g1) ∧ k x s1 g1 = Ok r.
Proof.
  unfold bind. destruct (m s g) as [[[x s1] g1]| |]; [|done..]. eauto.
Qed.

Lemma G_get_eq u s g :
  G_get u s g =
  match G s !! u with
  | Some vecinos => Ok (vecinos, s, g)
  | None => Raise KeyError
  end.
Proof. unfold G_get, bind, get_self. by destruct (G s !! u). Qed.

Lemma G_get_Ok u s g vecinos s' g' :
  G_get u s g = Ok (vecinos, s', g') →
  G s !! u = Some vecinos ∧ s' = s ∧ g' = g.
Proof.
  rewrite G_get_eq. destruct (G s !! u); [|done]. by intros [= -> -> ->].
Qed.

Lemma pheromone_get_Ok k s g tau s' g' :
  pheromone_get k s g = Ok (tau, s', g') → frame s s' ∧ g' = g.
Proof.
  unfold pheromone_get. destruct (pheromone s !! k); intros [= <- <- <-];
    auto using frame_refl, frame_set.
Qed.

Lemma choose_weights_Ok u t oc vecinos probs total s g r s' g' :
  choose_weights u t oc vecinos probs total s g = Ok (r, s', g') →
  frame s s' ∧ g' = g ∧ length r.1 = (length probs + length vecinos)%nat.
Proof.
  revert probs total s. induction vecinos as [|v rest IH]; intros probs total s; simpl.
  - unfold ret. intros [= <- <- <-]. split_and!; [apply frame_refl|done|simpl; lia].
  - intros H. apply bind_Ok in H as (tau & s1 & g1 & Hget & H).
    apply pheromone_get_Ok in Hget as [Hf ->].
    apply bind_Ok in H as (s2 & s3 & g3 & Hs & H).
    injection Hs as <- <- <-.
    apply IH in H as (Hf' & -> & Hlen). split_and!; [by eapply frame_trans|done|].
    rewrite Hlen, length_app. simpl. lia.
Qed.

Lemma choose_pick_Some r acc vps v :
  choose_pick r acc vps = Some v → v ∈ vps.*1.
Proof.
  revert acc. induction vps as [|[v' p] rest IH]; intros acc; simpl; [done|].
  destruct (leb r (add acc p)).
  - intros [= ->]. left.
  - intros H. right. eauto.
Qed.

Lemma random_choice_Ok {X : Type} (l : list X) s g x s' g' :
  random_choice l s g = Ok (x, s', g') → x ∈ l ∧ s' = s.
Proof.
  destruct l as [|y l]; [done|]. unfold random_choice.
  destruct (randbelow _ g) as [i g1].
  destruct ((y :: l) !! i) eqn:Hi; [|done]. intros [= <- <- <-].
  split; [|done]. by eapply list_elem_of_lookup_2.
Qed.

(** Whatever the weights and the draws, [choose_next] returns one of the
    neighbours listed for [u] and changes nothing but the pheromone table. *)
Lemma choose_next_Ok u t oc s g v s' g' :
  choose_next u t oc s g = Ok (v, s', g') → edge (G s) u v ∧ frame s s'.
Proof.
  unfold choose_next. intros H.
  apply bind_Ok in H as (vecinos & s1 & g1 & HG & H).
  apply G_get_Ok in HG as (HG & -> & ->).
  apply bind_Ok in H as ([probs total] & s2 & g2 & Hw & H).
  apply choose_weights_Ok in Hw as (Hf & -> & _).
  assert (v ∈ vecinos ∧ s' = s2) as [Hv ->]; [|split; [by exists vecinos|done]].
  destruct (match vecinos with [] => true | _ :: _ => eqb total (of_Z 0) end).
  { by apply random_choice_Ok in H. }
  apply bind_Ok in H as (r & s3 & g3 & Hr & H).
  unfold random in Hr. destruct (random_random g) as [r' g'']. injection Hr as -> <- ->.
  destruct (choose_pick _ _ _) as [w|] eqn:Hpick.
  - injection H as <- <- <-. split; [|done].
    apply choose_pick_Some in Hpick.
    apply list_elem_of_fmap in Hpick as ([w' p] & -> & Hin).
    by apply elem_of_zip_l in Hin.
  - destruct (last vecinos) as [w|] eqn:Hlast; [|done].
    injection H as <- <- <-. split; [|done].
    apply last_Some in Hlast as [l' ->]. set_solver.
Qed.

(** With no neighbour listed, [choose_next] raises [IndexError]. *)
Lemma choose_next_isolated u t oc s g :
  G s !! u = Some [] → choose_next u t oc s g = Raise IndexError.
Proof.
  intros HG. unfold choose_next. unfold bind at 1. by rewrite G_get_eq, HG.
Qed.

(** Outside the graph, [choose_next] raises [KeyError]. *)
Lemma choose_next_missing u t oc s g :
  G s !! u = None → choose_next u t oc s g = Raise KeyError.
Proof.
  intros HG. unfold choose_next. unfold bind at 1. by rewrite G_get_eq, HG.
Qed.

(** What one [while] loop has done when it ends. *)
Lemma walk_Ok fuel target curr t ruta oc s g t' ruta' oc' s' g' :
  walk fuel target curr t ruta oc s g = Ok (t', ruta', oc', s', g') →
  ∃ steps,
    ruta' = ruta ++ steps ∧ t' = (t + length steps)%nat ∧
    steps.*1 = seq t (length steps) ∧
    chain (G s) curr steps.*2 ∧
    last (curr :: steps.*2) = Some target ∧
    (curr = target → steps = []) ∧ (curr ≠ target → steps ≠ []) ∧
    oc' = claim_all steps oc ∧ frame s s'.
Proof.
  revert curr t ruta oc s g. induction fuel as [|fuel IH]; intros curr t ruta oc s g;
    simpl; case_bool_decide as Hc.
  - intros [= <- <- <- <- <-]. exists []. subst.
    rewrite app_nil_r. split_and!; auto using frame_refl; done.
  - done.
  - intros [= <- <- <- <- <-]. exists []. subst.
    rewrite app_nil_r. split_and!; auto using frame_refl; done.
  - intros H. apply bind_Ok in H as (nxt & s1 & g1 & Hnext & H).
    apply choose_next_Ok in Hnext as [Hedge Hf].
    apply IH in H as (steps & -> & -> & Ht & Hch & Hlast & _ & _ & -> & Hf').
    exists ((t, nxt) :: steps). simpl. rewrite <- app_assoc.
    split_and!.
    + done.
    + lia.
    + by f_equal.
    + done.
    + by rewrite <- (frame_G _ _ Hf).
    + done.
    + done.
    + done.
    + done.
    + by eapply frame_trans.
Qed.

(** A node without neighbours that is not the target stops the loop with
    [IndexError] at its first step. *)
Lemma walk_isolated fuel target curr t ruta oc s g :
  G s !! curr = Some [] → curr ≠ target →
  walk (S fuel) target curr t ruta oc s g = Raise IndexError.
Proof.
  intros HG Hne. simpl. rewrite bool_decide_eq_false_2 by done.
  unfold bind. by rewrite choose_next_isolated.
Qed.

Lemma chain_app (G0 : gmap node (list node)) u l1 l2 v :
  chain G0 u l1 → last (u :: l1) = Some v → chain G0 v l2 → chain G0 u (l1 ++ l2).
Proof.
  revert u. induction l1 as [|w l1 IH]; intros u; simpl.
  - by intros _ [= ->].
  - intros [He Hc] Hl Hc2. split; [done|]. by apply IH.
Qed.

Lemma chain_rtc (G0 : gmap node (list node)) u l v :
  chain G0 u l → last (u :: l) = Some v → rtc (edge G0) u v.
Proof.
  revert u. induction l as [|w l IH]; intros u; simpl.
  - by intros _ [= ->].
  - intros [He Hc] Hl. eapply rtc_l; eauto.
Qed.

Lemma last_app_cons {X : Type} (x : X) l1 y l2 z :
  last (x :: l1) = Some y → last (y :: l2) = Some z → last (x :: l1 ++ l2) = Some z.
Proof.
  intros H1 H2. destruct l2 as [|w l2].
  - rewrite app_nil_r. by injection H2 as <-.
  - rewrite last_cons_cons in H2. rewrite app_comm_cons, last_app, H2. done.
Qed.

(** The shape of a returned route: the timesteps count up from [0], every
    step (the first one from [start]) follows an edge, and the route splits
    into a leg that ends at [mid] and a leg that ends at [end_]; a leg
    records nothing exactly when it starts at its target. *)
Definition route_shape (G0 : gmap node (list node)) (start mid end_ : node)
    (ruta : route) : Prop :=
  ruta.*1 = seq 0 (length ruta) ∧
  chain G0 start ruta.*2 ∧
  ∃ leg1 leg2,
    ruta = leg1 ++ leg2 ∧
    last (start :: leg1.*2) = Some mid ∧
    last (mid :: leg2.*2) = Some end_ ∧
    (leg1 = [] ↔ start = mid) ∧ (leg2 = [] ↔ mid = end_).

Lemma build_route_single_Ok fuel start mid end_ oc s g ruta oc' s' g' :
  build_route_single fuel start mid end_ oc s g = Ok (ruta, oc', s', g') →
  route_shape (G s) start mid end_ ruta ∧ oc' = claim_all ruta oc ∧ frame s s'.
Proof.
  unfold build_route_single. intros H.
  apply bind_Ok in H as ([[t1 r1] oc1] & s1 & g1 & H1 & H).
  apply bind_Ok in H as ([[t2 r2] oc2] & s2 & g2 & H2 & H).
  injection H as <- <- <- <-.
  apply walk_Ok in H1 as (leg1 & -> & -> & Ht1 & Hc1 & Hl1 & He1 & Hn1 & -> & Hf1).
  apply walk_Ok in H2 as (leg2 & -> & -> & Ht2 & Hc2 & Hl2 & He2 & Hn2 & -> & Hf2).
  rewrite (frame_G _ _ Hf1) in Hc2. rewrite Nat.add_0_l in Ht2. rewrite app_nil_l.
  unfold route_shape. split_and!.
  - rewrite fmap_app, length_app, seq_app, Ht1, Ht2. done.
  - rewrite fmap_app. by eapply chain_app.
  - exists leg1, leg2. split_and!; try done.
    + split; [|done]. intros ->. by injection Hl1.
    + split; [|done]. intros ->. by injection Hl2.
  - unfold claim_all. by rewrite fold_left_app.
  - by eapply frame_trans.
Qed.

(** An isolated start that is not the pickup makes the construction raise
    [IndexError], whatever the step budget. *)
Lemma build_route_single_isolated fuel start mid end_ oc s g :
  G s !! start = Some [] → start ≠ mid →
  build_route_single (S fuel) start mid end_ oc s g = Raise IndexError.
Proof.
  intros HG Hne. unfold build_route_single, bind.
  by rewrite walk_isolated.
Qed.

End RouteFacts.

(** The value a computation returned, if it returned. *)
Definition returned {X S T : Type} (r : result (X * S * T)) : option X :=
  match r with
  | Ok (x, _, _) => Some x
  | _ => None
  end.

(** Did the computation return? *)
Definition is_ok {X : Type} (r : result X) : bool :=
  match r with
  | Ok _ => true
  | _ => false
  end.

Lemma Ok_of_is_ok {X : Type} (r : result X) : is_ok r = true → ∃ x, r = Ok x.
Proof. destruct r; [by eexists|done..]. Qed.

Lemma Ok_of_route {Y S T : Type} (r : result (route * Y * S * T)) (ruta : route) :
  fst <$> returned r = Some ruta → ∃ y s g, r = Ok (ruta, y, s, g).
Proof.
  destruct r as [[[[ruta' y] s] g]| |]; [|done..]. intros [= ->]. by eexists _, _, _.
Qed.

Lemma Ok_of_returned {X S T : Type} (r : result (X * S * T)) (x : X) :
  returned r = Some x → ∃ s g, r = Ok (x, s, g).
Proof. destruct r as [[[x' s] g]| |]; [|done..]. intros [= ->]. by eexists _, _. Qed.

(** The contract of [_randbelow]: an index below [n]. *)
Class RandomLaws {A : Arith} (R : RandomSource A) : Prop :=
  randbelow_lt : ∀ n g, 0 < n → (randbelow n g).1 < n.

#[export] Instance scripted_laws (A : Arith) : RandomLaws (scripted A).
Proof.
  intros n [rs ks] Hn. simpl. destruct ks as [|k ks]; simpl; [done|].
  apply Nat.mod_upper_bound. lia.
Qed.

Section Progress.
Context {A : Arith} {P : Power A} {R : RandomSource A} {C : GaCore A}.
Context {RL : RandomLaws R}.

Lemma choose_weights_total u t oc vecinos probs total s g :
  ∃ r s', choose_weights u t oc vecinos probs total s g = Ok (r, s', g).
Proof.
  revert probs total s. induction vecinos as [|v rest IH]; intros probs total s; simpl.
  - by eexists _, _.
  - unfold bind at 1. unfold pheromone_get.
    destruct (pheromone s !! (u, v)); unfold bind, get_self; apply IH.
Qed.

(** A node with a neighbour always gets a next node. *)
Lemma choose_next_total u t oc s g vecinos :
  G s !! u = Some vecinos → vecinos ≠ [] →
  ∃ v s' g', choose_next u t oc s g = Ok (v, s', g').
Proof.
  intros HG Hne. unfold choose_next. unfold bind at 1. rewrite G_get_eq, HG.
  unfold bind at 1.
  destruct (choose_weights_total u t oc vecinos [] (of_Z 0) s g) as ([probs total] & s1 & ->).
  destruct vecinos as [|v0 rest]; [done|].
  destruct (eqb total (of_Z 0)).
  - unfold random_choice.
    pose proof (randbelow_lt (length (v0 :: rest)) g ltac:(simpl; lia)) as Hlt.
    destruct (randbelow _ g) as [i g1]. simpl in Hlt.
    destruct (lookup_lt_is_Some_2 (v0 :: rest) i Hlt) as [x ->]. by eexists _, _, _.
  - unfold bind, random. destruct (random_random g) as [r g1].
    destruct (choose_pick _ _ _); [by eexists _, _, _|].
    destruct (last (v0 :: rest)) eqn:Hl; [by eexists _, _, _|].
    by apply last_None in Hl.
Qed.

End Progress.

(** The corridor never leads to the isolated cell: the loop is still
    running after any number of steps, whatever the draws. *)
Lemma corridor_walk_runs fuel curr t ruta oc (s : ACO_MultiAgent exact)
    (g : @rng exact (scripted exact)) :
  G s = corridor → curr = a0 ∨ curr = b0 →
  walk fuel c0 curr t ruta oc s g = OutOfFuel.
Proof.
  revert curr t ruta oc s g. induction fuel as [|fuel IH]; intros curr t ruta oc s g HG Hc.
  - simpl. by destruct Hc as [-> | ->].
  - simpl. rewrite bool_decide_eq_false_2 by (by destruct Hc as [-> | ->]).
    unfold bind.
    assert (∃ vecinos, G s !! curr = Some vecinos ∧ vecinos ≠ []) as (vs & Hvs & Hne).
    { rewrite HG. destruct Hc as [-> | ->]; by eexists. }
    destruct (choose_next_total curr t oc s g vs Hvs Hne) as (v & s' & g' & Hn).
    rewrite Hn. apply choose_next_Ok in Hn as [(vs' & Hvs' & Hin) Hf].
    apply IH; [by rewrite (frame_G _ _ Hf)|].
    rewrite HG in Hvs'.
    destruct Hc as [-> | ->]; vm_compute in Hvs'; injection Hvs' as <-; set_solver.
Qed.

(** The claim of a bounded leg: some step budget lets the construction end,
    with a route or with an exception. *)
Definition settles {A : Arith} {P : Power A} {R : RandomSource A} {C : GaCore A}
    (s : ACO_MultiAgent A) (start mid end_ : node) : Prop :=
  ∃ fuel g, build_route_single fuel start mid end_ ∅ s g ≠ OutOfFuel.

(** C1, counterexample: in the corridor with the isolated cell as pickup, no
    step budget and no sequence of draws lets the construction end; it
    neither returns nor raises. *)
Lemma unreachable_pickup_never_settles :
  ¬ @settles exact exact_pow (scripted exact) exact_core
      (exact_aco corridor [a0] [c0] [c0] 1 1) a0 c0 c0.
Proof.
  intros (fuel & g & H). apply H. unfold build_route_single, bind.
  by rewrite corridor_walk_runs; [| |left].
Qed.

(** C1, as amended: route construction has no step bound and no result for
    infeasibility.  When it returns, the pickup is reachable from the start
    and the drop from the pickup along edges of the graph; when the start is
    an isolated cell other than the pickup, it raises [IndexError] at the
    first step for every positive step budget. *)
Theorem route_construction_outcomes {A : Arith} {P : Power A}
    {R : RandomSource A} {C : GaCore A}
    (fuel : nat) (start mid end_ : node) (oc : gmap (nat * node) bool)
    (s : ACO_MultiAgent A) (g : rng) :
  (∀ r, build_route_single fuel start mid end_ oc s g = Ok r →
        rtc (edge (G s)) start mid ∧ rtc (edge (G s)) mid end_) ∧
  (G s !! start = Some [] → start ≠ mid →
   build_route_single (S fuel) start mid end_ oc s g = Raise IndexError).
Proof.
  split.
  - intros [[[ruta oc'] s'] g'] H.
    apply build_route_single_Ok in H as ((_ & Hch & leg1 & leg2 & -> & Hl1 & Hl2 & _) & _).
    rewrite fmap_app in Hch. split.
    + eapply chain_rtc; [|done]. clear -Hch. revert start Hch.
      induction (leg1.*2) as [|w l IH]; intros u; simpl; [done|].
      intros [He Hc]. eauto.
    + eapply chain_rtc; [|done]. clear -Hch Hl1. revert start Hch Hl1.
      induction (leg1.*2) as [|w l IH]; intros u; simpl.
      * by intros Hc [= ->].
      * intros [He Hc] Hl. eauto.
  - apply build_route_single_isolated.
Qed.

(** C1, witness: a round trip in the corridor returns, and a start on the
    isolated cell raises [IndexError]. *)
Lemma route_construction_outcomes_witness :
  (rtc (edge corridor) a0 b0 ∧ rtc (edge corridor) b0 a0) ∧
  build_route_single 1 c0 a0 a0 ∅ (exact_aco corridor [c0] [a0] [a0] 1 1) seed0
  = Raise IndexError.
Proof.
  split.
  - pose proof (route_construction_outcomes 3 a0 b0 a0 ∅
                  (exact_aco corridor [a0] [b0] [a0] 1 1) seed0) as [H _].
    eapply H. vm_compute. reflexivity.
  - pose proof (route_construction_outcomes 0 c0 a0 a0 ∅
                  (exact_aco corridor [c0] [a0] [a0] 1 1) seed0) as [_ H].
    apply H; [vm_compute; reflexivity | discriminate].
Defined.

(** The route invariant as the specification words it: contiguous timesteps
    from [0], adjacent consecutive nodes (the first one adjacent to the
    start), the pickup recorded no later than the drop, and each leg ending
    with a recorded node that is its target. *)
Definition route_invariant (G0 : gmap node (list node)) (start mid end_ : node)
    (ruta : route) : Prop :=
  ruta.*1 = seq 0 (length ruta) ∧
  chain G0 start ruta.*2 ∧
  (∃ i j, i ≤ j ∧ ruta.*2 !! i = Some mid ∧ ruta.*2 !! j = Some end_) ∧
  ∃ leg1 leg2,
    ruta = leg1 ++ leg2 ∧ last leg1.*2 = Some mid ∧ last leg2.*2 = Some end_.

Lemma last_cons_ne {X : Type} (x : X) (l : list X) :
  l ≠ [] → last (x :: l) = last l.
Proof. by destruct l. Qed.

Lemma route_shape_invariant G0 start mid end_ ruta :
  route_shape G0 start mid end_ ruta → start ≠ mid → mid ≠ end_ →
  route_invariant G0 start mid end_ ruta.
Proof.
  intros (Ht & Hc & leg1 & leg2 & -> & Hl1 & Hl2 & He1 & He2) Hn1 Hn2.
  assert (leg1 ≠ []) as Hne1 by (intros ?; apply Hn1, He1; done).
  assert (leg2 ≠ []) as Hne2 by (intros ?; apply Hn2, He2; done).
  rewrite last_cons_ne in Hl1 by (by destruct leg1).
  rewrite last_cons_ne in Hl2 by (by destruct leg2).
  split_and!; [done|done| |by exists leg1, leg2].
  exists (pred (length leg1)), (length leg1 + pred (length leg2)).
  rewrite fmap_app. split_and!.
  - lia.
  - rewrite lookup_app_l by (rewrite length_fmap; destruct leg1; [done|simpl; lia]).
    by rewrite last_lookup, length_fmap in Hl1.
  - rewrite lookup_app_r by (rewrite length_fmap; lia).
    rewrite length_fmap, Nat.add_comm, Nat.add_sub.
    by rewrite last_lookup, length_fmap in Hl2.
Qed.

(** C3, counterexample: an agent that starts on its pickup cell gets the
    route [[(0, b0)]]: the pickup is not among the recorded nodes and the
    first leg has no recorded node at all. *)
Lemma start_on_pickup_breaks_invariant :
  fst <$> returned (build_route_single 5 a0 a0 b0 ∅
                      (exact_aco corridor [a0] [a0] [b0] 1 1) seed0)
  = Some [(0, b0)] ∧
  ¬ route_invariant corridor a0 a0 b0 [(0, b0)].
Proof.
  split; [vm_compute; reflexivity|].
  intros (_ & _ & (i & j & _ & Hi & _) & _).
  destruct i as [|[|i]]; discriminate.
Qed.

(** C3, as amended: whenever [build_route_single] returns, the timesteps of
    the route are [0, 1, 2, ...], every recorded node is a neighbour of the
    one before it (the first one of the start), and the route is a first leg
    whose walk from the start ends at the pickup followed by a second leg
    whose walk from the pickup ends at the drop.  A leg that starts at its
    target records nothing; when start, pickup and drop are pairwise
    consecutive-distinct (start <> pickup, pickup <> drop) the pickup is
    recorded before the drop and each leg ends with its target recorded. *)
Theorem returned_route_shape {A : Arith} {P : Power A} {R : RandomSource A}
    {C : GaCore A} (fuel : nat) (start mid end_ : node)
    (oc : gmap (nat * node) bool) (s : ACO_MultiAgent A) (g : rng)
    (ruta : route) (oc' : gmap (nat * node) bool) (s' : ACO_MultiAgent A)
    (g' : rng) :
  build_route_single fuel start mid end_ oc s g = Ok (ruta, oc', s', g') →
  route_shape (G s) start mid end_ ruta ∧
  (start ≠ mid → mid ≠ end_ → route_invariant (G s) start mid end_ ruta).
Proof.
  intros H. apply build_route_single_Ok in H as (Hs & _ & _).
  split; [done|]. by apply route_shape_invariant.
Qed.

(** C3, witness: on the free 2 x 2 grid the route from (0,0) through (1,1)
    to (0,1) is returned and has the stated shape. *)
Lemma returned_route_shape_witness :
  route_shape square (0, 0)%Z (1, 1)%Z (0, 1)%Z [(0, (1, 1)%Z); (1, (0, 1)%Z)] ∧
  route_invariant square (0, 0)%Z (1, 1)%Z (0, 1)%Z [(0, (1, 1)%Z); (1, (0, 1)%Z)].
Proof.
  destruct (Ok_of_route
              (build_route_single 5 (0, 0)%Z (1, 1)%Z (0, 1)%Z ∅
                 (exact_aco square [(0, 0)%Z] [(1, 1)%Z] [(0, 1)%Z] 1 1)
                 (([Qmake 9 10; Qmake 1 2], []) : @rng exact (scripted exact)))
              [(0, (1, 1)%Z); (1, (0, 1)%Z)]) as (oc' & s' & g' & E).
  { vm_compute. reflexivity. }
  destruct (returned_route_shape _ _ _ _ _ _ _ _ _ _ _ E) as [H1 H2].
  split; [exact H1 | apply H2; discriminate].
Defined.

(** ** Scoring and reinforcement: general facts *)

(** The cost of a walk through the nodes [l], added to [acc] step by step. *)
Fixpoint path_cost {A : Arith} {C : GaCore A} (acc : num) (l : list node) : num :=
  match l with
  | [] => acc
  | a :: l' =>
      match l' with
      | [] => acc
      | b :: _ => path_cost (add acc (dist a b)) l'
      end
  end.

(** The distance of the recorded nodes of all routes, agent after agent. *)
Definition recorded_distance {A : Arith} {C : GaCore A} (rutas : list route) : num :=
  fold_left (fun acc r => path_cost acc (nodos_of r)) rutas (of_Z 0).

(** The distance of the moves of all agents, the first move from the
    agent's start included. *)
Definition travelled_distance {A : Arith} {C : GaCore A} (starts : list node)
    (rutas : list route) : num :=
  fold_left (fun acc sr => path_cost acc (sr.1 :: nodos_of sr.2))
    (zip starts rutas) (of_Z 0).

(** The pairs [reinforce] deposits on, in order. *)
Definition reinforced_pairs (rutas : list route) : list (node * node) :=
  concat (map (fun r => consecutive (nodos_of r)) rutas).

(** How often the pair [e] occurs in [l]. *)
Definition traversals (e : node * node) (l : list (node * node)) : nat :=
  length (filter (fun x => x = e) l).

(** [n] deposits of [dep] on a table entry ([0.01] when the key is new). *)
Definition bump {A : Arith} (dep : num) (n : nat) (o : option num) : option num :=
  match n with
  | 0 => o
  | S _ => Some (Nat.iter n (fun tau => add tau dep) (default c_0_01 o))
  end.

Lemma consecutive_cons {X : Type} (a b : X) (l : list X) :
  consecutive (a :: b :: l) = (a, b) :: consecutive (b :: l).
Proof. reflexivity. Qed.

Lemma consecutive_length {X : Type} (l : list X) :
  length (consecutive l) = pred (length l).
Proof.
  induction l as [|a [|b l] IH]; [done..|].
  rewrite consecutive_cons. simpl length in *. by rewrite IH.
Qed.

Section ScoreFacts.
Context {A : Arith} {C : GaCore A}.

Lemma add_dists_path_cost (acc : num) (l : list node) :
  add_dists acc (consecutive l) = path_cost acc l.
Proof.
  revert acc. induction l as [|a [|b l] IH]; intros acc; [done..|].
  rewrite consecutive_cons. simpl. apply IH.
Qed.

Lemma score_solution_eq (self : ACO_MultiAgent A) (rutas : list route) :
  score_solution self rutas =
  let n := length (detect_conflicts (map nodos_of rutas)).1 in
  (add (recorded_distance rutas) (mul (w_conf self) (of_Z (Z.of_nat n))),
   recorded_distance rutas, n).
Proof.
  unfold score_solution, recorded_distance.
  destruct (detect_conflicts _) as [conflicts min_dist]. simpl.
  assert (∀ acc, fold_left (fun acc r => add_dists acc (consecutive (nodos_of r))) rutas acc
                 = fold_left (fun acc r => path_cost acc (nodos_of r)) rutas acc) as ->; [|done].
  induction rutas as [|r rutas IH]; intros acc; simpl; [done|].
  by rewrite add_dists_path_cost, IH.
Qed.

Lemma bump_succ (dep : num) (n : nat) (o : option num) :
  bump dep (S n) o = bump dep n (Some (add (default c_0_01 o) dep)).
Proof.
  destruct n as [|n]; [done|]. unfold bump. f_equal.
  change (default c_0_01 (Some ?x)) with x.
  generalize (S n). intros k. induction k as [|k IH]; [done|].
  simpl. by rewrite <- IH.
Qed.

Lemma deposits_lookup (dep : num) (l : list (node * node))
    (ph : gmap (node * node) num) (e : node * node) :
  fold_left (deposit dep) l ph !! e = bump dep (traversals e l) (ph !! e).
Proof.
  revert ph. induction l as [|ab l IH]; intros ph; [done|].
  simpl. rewrite IH. unfold deposit, traversals. rewrite filter_cons.
  destruct (decide (ab = e)) as [->|Hne].
  - rewrite lookup_insert_eq. simpl length. by rewrite bump_succ.
  - by rewrite lookup_insert_ne.
Qed.

Lemma fold_deposits_concat (dep : num) (ls : list (list (node * node)))
    (ph : gmap (node * node) num) :
  fold_left (fun ph l => fold_left (deposit dep) l ph) ls ph
  = fold_left (deposit dep) (concat ls) ph.
Proof.
  revert ph. induction ls as [|l ls IH]; intros ph; simpl; [done|].
  by rewrite IH, fold_left_app.
Qed.

(** What [reinforce] leaves at the key [e]: one deposit per traversal. *)
Lemma reinforce_lookup (self : ACO_MultiAgent A) (rutas : list route)
    (sc : num) (e : node * node) :
  pheromone (reinforce self rutas sc) !! e =
  bump (div (Q self) (add sc c_1e_9)) (traversals e (reinforced_pairs rutas))
    (pheromone self !! e).
Proof.
  unfold reinforce, reinforced_pairs. simpl.
  rewrite <- deposits_lookup, <- fold_deposits_concat.
  f_equal. generalize (pheromone self).
  induction rutas as [|r rutas IH]; intros ph; simpl; [done|]. apply IH.
Qed.

(** What [evaporate] leaves at the key [e]. *)
Lemma evaporate_lookup (self : ACO_MultiAgent A) (e : node * node) :
  pheromone (evaporate self) !! e =
  (fun tau => mul tau (sub (of_Z 1) (rho self))) <$> pheromone self !! e.
Proof. unfold evaporate. simpl. apply lookup_fmap. Qed.

End ScoreFacts.

(** C4, counterexample: the agent moves from [a0] to [b0], a move of cost
    [1]; the solution holds the route [[(0, b0)]] and [score_solution]
    reports distance [0] and score [0]. *)
Lemma first_move_missing_from_score :
  returned (build_solution_multi 5 (exact_aco corridor [a0] [b0] [b0] 1 1) seed0)
  = Some [[(0, b0)]] ∧
  score_solution (exact_aco corridor [a0] [b0] [b0] 1 1) [[(0, b0)]]
  = (inject_Z 0, inject_Z 0, 0) ∧
  @travelled_distance exact exact_core [a0] [[(0, b0)]] = inject_Z 1.
Proof. vm_compute. done. Qed.

(** C4, as amended: [score_solution] returns the penalised score
    [total_distance + w_conf * conflicts], the distance and the number of
    conflicts, where [conflicts] is the length of the list the conflict
    detector returns for the node lists of the routes, and [total_distance]
    sums, agent after agent, the move costs between consecutive recorded
    nodes of the route (the move from the start to the first recorded node
    is not part of it). *)
Theorem score_solution_penalized {A : Arith} {C : GaCore A}
    (self : ACO_MultiAgent A) (rutas : list route) :
  score_solution self rutas =
  (add (recorded_distance rutas)
       (mul (w_conf self)
            (of_Z (Z.of_nat (length (detect_conflicts (map nodos_of rutas)).1)))),
   recorded_distance rutas,
   length (detect_conflicts (map nodos_of rutas)).1).
Proof. apply score_solution_eq. Qed.

(** C9, counterexample: on a round trip (the drop is the start cell) the
    returned route ends on the agent's start node, so the route does contain
    it. *)
Lemma round_trip_records_start :
  fst <$> returned (build_route_single 5 a0 b0 a0 ∅
                      (exact_aco corridor [a0] [b0] [a0] 1 1) seed0)
  = Some [(0, b0); (1, a0)] ∧
  a0 ∈ nodos_of [(0, b0); (1, a0)].
Proof. split; [vm_compute; reflexivity|]. right. left. Qed.

(** C9, as amended: the route [build_route_single] returns does not record
    the agent's start node as its initial entry.  It is empty (start, pickup
    and drop coincide) or its first pair is [(0, nxt)] with [nxt] the
    neighbour of the start moved to first; the start can only be recorded
    later, when the walk comes back to it.  The moves made are the pair
    [(start, nxt)] followed by the consecutive recorded pairs; only the
    latter, one fewer than the steps taken, enter the distance of
    [score_solution] and receive the deposits of [reinforce], so the first
    move adds no cost and no trail. *)
Theorem start_not_recorded {A : Arith} {P : Power A} {R : RandomSource A}
    {C : GaCore A} (fuel : nat) (start mid end_ : node)
    (oc : gmap (nat * node) bool) (s : ACO_MultiAgent A) (g : rng)
    (ruta : route) (oc' : gmap (nat * node) bool) (s' : ACO_MultiAgent A)
    (g' : rng) :
  build_route_single fuel start mid end_ oc s g = Ok (ruta, oc', s', g') →
  ((ruta = [] ∧ start = mid ∧ mid = end_) ∨
   (∃ nxt rest, ruta = (0, nxt) :: rest ∧ edge (G s) start nxt ∧
      consecutive (start :: nodos_of ruta)
      = (start, nxt) :: consecutive (nodos_of ruta))) ∧
  length (consecutive (nodos_of ruta)) = pred (length ruta) ∧
  (∀ self, (score_solution self [ruta]).1.2
           = path_cost (of_Z 0) (nodos_of ruta)) ∧
  (∀ self sc e,
     pheromone (reinforce self [ruta] sc) !! e
     = bump (div (Q self) (add sc c_1e_9))
         (traversals e (consecutive (nodos_of ruta))) (pheromone self !! e)).
Proof.
  intros H. apply build_route_single_Ok in H as ((Ht & Hc & leg1 & leg2 & -> & Hl1 & Hl2 & He1 & He2) & _ & _).
  split_and!.
  - destruct (leg1 ++ leg2) as [|[t nxt] rest] eqn:E.
    + left. apply app_eq_nil in E as [-> ->]. split_and!; [done|by apply He1|by apply He2].
    + right. exists nxt, rest. simpl in Ht, Hc. injection Ht as -> _.
      destruct Hc as [Hedge _]. done.
  - unfold nodos_of. by rewrite consecutive_length, length_map.
  - intros self. by rewrite score_solution_eq.
  - intros self sc e. rewrite reinforce_lookup. unfold reinforced_pairs. simpl.
    by rewrite app_nil_r.
Qed.

(** C9, witness: the one-step route from [a0] to [b0]. *)
Lemma start_not_recorded_witness :
  length (consecutive (nodos_of [(0, b0)])) = 0 ∧
  (score_solution (exact_aco corridor [a0] [b0] [b0] 1 1) [[(0, b0)]]).1.2
  = @path_cost exact exact_core (inject_Z 0) [b0].
Proof.
  destruct (Ok_of_route
              (build_route_single 5 a0 b0 b0 ∅
                 (exact_aco corridor [a0] [b0] [b0] 1 1) seed0)
              [(0, b0)]) as (oc' & s' & g' & E).
  { vm_compute. reflexivity. }
  destruct (start_not_recorded _ _ _ _ _ _ _ _ _ _ _ E) as (_ & H1 & H2 & _).
  split; [exact H1 | exact (H2 (exact_aco corridor [a0] [b0] [b0] 1 1))].
Defined.

(** ** Pheromone update *)

(** Every stored trail value is strictly positive. *)
Definition positive_table {A : Arith} (ph : gmap (node * node) num) : Prop :=
  ∀ e tau, ph !! e = Some tau → ltb (of_Z 0) tau = true.

(** One evaporate/reinforce cycle of [run], for the iteration-best [c]. *)
Definition cycle {A : Arith} (self : ACO_MultiAgent A)
    (c : num * list route) : ACO_MultiAgent A :=
  reinforce (evaporate self) c.2 c.1.

(** The laws of exact arithmetic that keep a trail positive; rounding to
    zero (underflow) breaks the first three. *)
Class PositiveLaws (A : Arith) : Prop := {
  pos_mul : ∀ x y, ltb (of_Z 0) x = true → ltb (of_Z 0) y = true →
                   ltb (of_Z 0) (mul x y) = true;
  pos_div : ∀ x y, ltb (of_Z 0) x = true → ltb (of_Z 0) y = true →
                   ltb (of_Z 0) (div x y) = true;
  pos_add : ∀ x y, ltb (of_Z 0) x = true → ltb (of_Z 0) y = true →
                   ltb (of_Z 0) (add x y) = true;
  nonneg_add : ∀ x y, leb (of_Z 0) x = true → ltb (of_Z 0) y = true →
                      ltb (of_Z 0) (add x y) = true;
  pos_sub : ∀ x y, ltb x y = true → ltb (of_Z 0) (sub y x) = true;
  pos_0_01 : ltb (of_Z 0) c_0_01 = true;
  pos_1e_9 : ltb (of_Z 0) c_1e_9 = true
}.

Lemma exact_ltb (x y : QArith_base.Q) : @ltb exact x y = true ↔ (x < y)%Q.
Proof.
  simpl. rewrite negb_true_iff, <- not_true_iff_false, Qle_bool_iff.
  split; [apply Qnot_le_lt | apply Qlt_not_le].
Qed.

Lemma exact_leb (x y : QArith_base.Q) : @leb exact x y = true ↔ (x <= y)%Q.
Proof. apply Qle_bool_iff. Qed.

#[export] Instance exact_positive : PositiveLaws exact.
Proof.
  split; intros *; rewrite ?exact_ltb, ?exact_leb; simpl; rewrite ?Qred_correct.
  - apply Qmult_lt_0_compat.
  - intros Hx Hy. apply Qmult_lt_0_compat; [done|]. by apply Qinv_lt_0_compat.
  - unfold inject_Z. lra.
  - unfold inject_Z. lra.
  - unfold inject_Z. lra.
  - reflexivity.
  - reflexivity.
Qed.

Section PheromoneFacts.
Context {A : Arith} {PL : PositiveLaws A}.

Lemma init_pheromone_positive (G0 : gmap node (list node)) :
  positive_table (init_pheromone G0) ∧
  ∀ e tau, init_pheromone G0 !! e = Some tau → tau = c_0_01.
Proof.
  unfold init_pheromone.
  assert (∀ l (ph : gmap (node * node) num),
            (∀ e tau, ph !! e = Some tau → tau = c_0_01) →
            ∀ e tau,
              fold_left
                (fun ph uvs => fold_left (fun ph v => <[(uvs.1, v) := c_0_01]> ph) uvs.2 ph)
                l ph !! e = Some tau → tau = c_0_01) as Hall.
  { induction l as [|[u vs] l IH]; intros ph Hph; simpl; [done|].
    apply IH. clear IH. revert ph Hph.
    induction vs as [|v vs IHv]; intros ph Hph; simpl; [done|].
    apply IHv. intros e tau. destruct (decide ((u, v) = e)) as [<-|Hne].
    - rewrite lookup_insert_eq. by intros [= <-].
    - rewrite lookup_insert_ne by done. apply Hph. }
  split; [|by apply Hall].
  intros e tau He. apply Hall in He as ->; [apply pos_0_01|done].
Qed.

Lemma iter_add_positive (dep tau : num) (n : nat) :
  ltb (of_Z 0) dep = true → ltb (of_Z 0) tau = true →
  ltb (of_Z 0) (Nat.iter n (fun tau => add tau dep) tau) = true.
Proof.
  intros Hd Ht. induction n as [|n IH]; simpl; [done|]. by apply pos_add.
Qed.

Lemma cycle_positive (self : ACO_MultiAgent A) (c : num * list route) :
  ltb (of_Z 0) (rho self) = true → ltb (rho self) (of_Z 1) = true →
  ltb (of_Z 0) (Q self) = true → leb (of_Z 0) c.1 = true →
  positive_table (pheromone self) → positive_table (pheromone (cycle self c)).
Proof.
  intros Hr0 Hr1 HQ Hc Hpos e tau. unfold cycle.
  rewrite reinforce_lookup, evaporate_lookup.
  assert (ltb (of_Z 0) (div (Q (evaporate self)) (add c.1 c_1e_9)) = true) as Hdep.
  { apply pos_div; [done|]. apply nonneg_add; [done|apply pos_1e_9]. }
  assert (∀ x, (fun tau => mul tau (sub (of_Z 1) (rho self))) <$> pheromone self !! e = Some x →
               ltb (of_Z 0) x = true) as Hev.
  { intros x. destruct (pheromone self !! e) as [y|] eqn:E; [|done].
    intros [= <-]. apply pos_mul; [by eapply Hpos|by apply pos_sub]. }
  destruct (traversals e _) as [|n]; simpl; [apply Hev|].
  intros [= <-]. apply pos_add; [|done]. apply iter_add_positive; [done|].
  destruct (_ <$> _) as [x|]; simpl; [by apply Hev|apply pos_0_01].
Qed.

Lemma cycle_config (self : ACO_MultiAgent A) (c : num * list route) :
  rho (cycle self c) = rho self ∧ Q (cycle self c) = Q self.
Proof. done. Qed.

End PheromoneFacts.

(** C7, counterexample: in binary64, with [rho = 0.5] and [Q = 10], the
    trail of the corridor edge [(a0, b0)] starts at [0.01] and is exactly
    [0.0] after 1100 evaporate/reinforce cycles whose best solution is the
    one-step route to [b0] (score [0]): it is no longer strictly positive. *)
Lemma binary64_trail_underflows :
  let s0 := @init binary64 corridor [a0] [b0] [b0] 1%float 3%float 0.5%float
              10%float 1 1100 6%float 1%float 1000%float false in
  @ltb binary64 0%float (rho s0) = true ∧
  @ltb binary64 (rho s0) 1%float = true ∧
  @ltb binary64 0%float (Q s0) = true ∧
  pheromone s0 !! (a0, b0) = Some 0x1.47ae147ae147bp-7%float ∧
  pheromone (Nat.iter 1100 (fun s => cycle s (0%float, [[(0, b0)]])) s0) !! (a0, b0)
  = Some 0%float ∧
  @ltb binary64 0%float 0%float = false.
Proof. vm_compute. done. Qed.

(** C7, as amended: every trail is [0.01] at initialisation, one entry per
    graph edge, and an unseen key reads as [0.01].  For [rho] in (0,1),
    [Q > 0] and non-negative scores, and as long as the arithmetic is exact
    (products, quotients and sums of positive numbers are positive, which
    binary64 underflow breaks), every trail stays strictly positive after
    any number of evaporate/reinforce cycles.  A cycle leaves at each key
    the evaporated value plus one deposit per traversal; no cap is applied. *)
Theorem trails_stay_positive {A : Arith} {PL : PositiveLaws A}
    (self : ACO_MultiAgent A) (cycles : list (num * list route)) :
  ltb (of_Z 0) (rho self) = true → ltb (rho self) (of_Z 1) = true →
  ltb (of_Z 0) (Q self) = true →
  (∀ c, c ∈ cycles → leb (of_Z 0) c.1 = true) →
  (∀ e tau, init_pheromone (G self) !! e = Some tau →
            tau = c_0_01 ∧ ltb (of_Z 0) tau = true) ∧
  (positive_table (pheromone self) →
   positive_table (pheromone (fold_left cycle cycles self))) ∧
  (∀ c e, pheromone (cycle self c) !! e
          = bump (div (Q self) (add c.1 c_1e_9))
              (traversals e (reinforced_pairs c.2))
              ((fun tau => mul tau (sub (of_Z 1) (rho self))) <$> pheromone self !! e)).
Proof.
  intros Hr0 Hr1 HQ Hcs. split_and!.
  - intros e tau He. destruct (init_pheromone_positive (G self)) as [Hp Hv].
    split; [by eapply Hv|by eapply Hp].
  - revert self Hr0 Hr1 HQ. induction cycles as [|c cycles IH]; intros self Hr0 Hr1 HQ Hpos; [done|].
    simpl. apply IH.
    + intros c' Hc'. apply Hcs. by right.
    + done.
    + done.
    + done.
    + apply cycle_positive; try done. apply Hcs. left.
  - intros c e. unfold cycle. by rewrite reinforce_lookup, evaporate_lookup.
Qed.

(** Three iteration-best solutions of the corridor with their scores. *)
Definition three_cycles : list (@num exact * list route) :=
  [(inject_Z 1, [[(0, b0); (1, a0)]]);
   (inject_Z 1, [[(0, b0); (1, a0)]]);
   (inject_Z 0, [[(0, b0)]])].

(** C7, witness: three cycles of the corridor round trip in exact
    arithmetic. *)
Lemma trails_stay_positive_witness :
  positive_table
    (pheromone (fold_left cycle three_cycles
                  (exact_aco corridor [a0] [b0] [a0] 1 3))).
Proof.
  pose proof (trails_stay_positive (exact_aco corridor [a0] [b0] [a0] 1 3)
                three_cycles) as H.
  destruct H as (_ & H & _).
  - reflexivity.
  - reflexivity.
  - reflexivity.
  - intros c Hc. unfold three_cycles in Hc.
    repeat (apply elem_of_cons in Hc as [-> | Hc]; [reflexivity|]).
    by apply elem_of_nil in Hc.
  - apply H. apply init_pheromone_positive.
Defined.

(** ** The optimisation loop *)

(** The comparison [<] is a strict weak order and every score is below
    [float("inf")]: what exact arithmetic, and binary64 without NaN and
    infinities, provide. *)
Class OrderLaws (A : Arith) : Prop := {
  ltb_irrefl : ∀ x, ltb x x = false;
  ltb_trans : ∀ x y z, ltb x y = true → ltb y z = true → ltb x z = true;
  ltb_negtrans : ∀ x y z, ltb x y = false → ltb y z = false → ltb x z = false;
  lt_inf_all : ∀ x, lt_inf x = true
}.

#[export] Instance exact_order : OrderLaws exact.
Proof.
  split.
  - intros x. apply not_true_iff_false. rewrite exact_ltb. apply Qlt_irrefl.
  - intros x y z. rewrite !exact_ltb. apply Qlt_trans.
  - intros x y z. rewrite <- !not_true_iff_false, !exact_ltb.
    intros H1 H2 H3. apply Qnot_lt_le in H1, H2.
    apply (Qlt_irrefl x). eapply Qlt_le_trans; [done|]. by eapply Qle_trans.
  - done.
Qed.

(** The candidate [candidatos[0]] after the sort. *)
Definition iteration_best {A : Arith} (candidatos : list (num * list route))
    : option (num * list route) :=
  head (sort_by_score candidatos).

(** The incumbent after one more iteration with the candidates [candidatos]. *)
Definition incumbent_step {A : Arith}
    (inc : option (list route) * score A) (candidatos : list (num * list route))
    : option (list route) * score A :=
  match iteration_best candidatos with
  | Some (score_best, rutas_best) =>
      if improves score_best inc.2 then (Some rutas_best, Fin score_best) else inc
  | None => inc
  end.

(** The incumbent after the iterations whose candidates are [hist]. *)
Definition incumbent {A : Arith} (hist : list (list (num * list route)))
    : option (list route) * score A :=
  fold_left incumbent_step hist (None, Inf).

(** [sc] is a minimum of the scores of [cands]. *)
Definition minimal_in {A : Arith} (sc : num) (cands : list (num * list route))
    : Prop :=
  ∀ c, c ∈ cands → ltb c.1 sc = false.

Section SortFacts.
Context {A : Arith}.

Lemma insert_by_score_elem (c c' : num * list route) l :
  c' ∈ insert_by_score c l ↔ c' = c ∨ c' ∈ l.
Proof.
  induction l as [|h l IH]; simpl.
  - rewrite list_elem_of_singleton. set_solver.
  - destruct (ltb c.1 h.1); [set_solver|]. rewrite !elem_of_cons, IH. tauto.
Qed.

Lemma sort_by_score_elem (c : num * list route) l :
  c ∈ sort_by_score l ↔ c ∈ l.
Proof.
  unfold sort_by_score.
  assert (∀ acc, c ∈ fold_left (fun sorted c => insert_by_score c sorted) l acc
                 ↔ c ∈ acc ∨ c ∈ l) as H.
  { induction l as [|h l IH]; intros acc; simpl; [set_solver|].
    rewrite IH, insert_by_score_elem, elem_of_cons. tauto. }
  rewrite H. set_solver.
Qed.

Lemma sort_by_score_nil l : sort_by_score l = [] → l = [].
Proof.
  intros H. destruct l as [|c l]; [done|].
  assert (c ∈ sort_by_score (c :: l)) as Hc by (apply sort_by_score_elem; left).
  rewrite H in Hc. by apply elem_of_nil in Hc.
Qed.

(** The head of a list is a minimum of it. *)
Definition head_min (l : list (num * list route)) : Prop :=
  match l with
  | [] => True
  | h :: _ => minimal_in h.1 l
  end.

End SortFacts.

Section LoopFacts.
Context {A : Arith} {P : Power A} {R : RandomSource A} {C : GaCore A}.

Lemma score_solution_frame (s s' : ACO_MultiAgent A) rutas :
  frame s s' → score_solution s' rutas = score_solution s rutas.
Proof. intros ->. by destruct s. Qed.

Lemma index_Ok {X : Type} (l : list X) i s g x s' g' :
  index l i s g = Ok (x, s', g') → s' = s ∧ g' = g.
Proof. unfold index. destruct (l !! i); [|done]. by intros [= _ -> ->]. Qed.

Lemma build_agents_Ok fuel idxs rutas oc s g r s' g' :
  build_agents fuel idxs rutas oc s g = Ok (r, s', g') → frame s s'.
Proof.
  revert rutas oc s g. induction idxs as [|i idxs IH]; intros rutas oc s g; simpl.
  - intros [= _ <- _]. apply frame_refl.
  - intros H. apply bind_Ok in H as (s0 & s1 & g1 & [= <- <- <-] & H).
    apply bind_Ok in H as (x1 & s1 & g1 & H1 & H). apply index_Ok in H1 as [-> ->].
    apply bind_Ok in H as (x2 & s1 & g1 & H2 & H). apply index_Ok in H2 as [-> ->].
    apply bind_Ok in H as (x3 & s1 & g1 & H3 & H). apply index_Ok in H3 as [-> ->].
    apply bind_Ok in H as ([ruta oc'] & s1 & g1 & H4 & H).
    apply build_route_single_Ok in H4 as (_ & _ & Hf).
    apply IH in H. by eapply frame_trans.
Qed.

Lemma build_solution_multi_Ok fuel s g r s' g' :
  build_solution_multi fuel s g = Ok (r, s', g') → frame s s'.
Proof.
  unfold build_solution_multi. intros H.
  apply bind_Ok in H as (s0 & s1 & g1 & [= <- <- <-] & H).
  by apply build_agents_Ok in H.
Qed.

(** The inner loop appends [n] candidates, each scored by [score_solution]. *)
Lemma build_candidates_Ok fuel n acc s g cands s' g' :
  build_candidates fuel n acc s g = Ok (cands, s', g') →
  frame s s' ∧
  ∃ new, cands = acc ++ new ∧ length new = n ∧
         ∀ c, c ∈ new → c.1 = (score_solution s c.2).1.1.
Proof.
  revert acc s g. induction n as [|n IH]; intros acc s g; simpl.
  - intros [= <- <- <-]. split; [apply frame_refl|].
    exists []. rewrite app_nil_r. split_and!; [done..|]. intros c Hc. by apply elem_of_nil in Hc.
  - intros H. apply bind_Ok in H as (rutas & s1 & g1 & Hb & H).
    apply build_solution_multi_Ok in Hb as Hf1.
    apply bind_Ok in H as (s0 & s2 & g2 & [= <- <- <-] & H).
    destruct (score_solution s1 rutas) as [[sc d] cf] eqn:Esc.
    apply IH in H as (Hf2 & new & -> & Hlen & Hnew).
    split; [by eapply frame_trans|].
    exists ((sc, rutas) :: new). rewrite <- app_assoc. split_and!; [done|simpl; lia|].
    intros c Hc. apply elem_of_cons in Hc as [->|Hc].
    + simpl. by rewrite <- (score_solution_frame s s1), Esc.
    + rewrite (Hnew c Hc). by rewrite (score_solution_frame s s1).
Qed.

(** One iteration: all candidates are built, then the table is updated with
    the iteration-best alone, then the incumbent is compared with it. *)
Lemma iteration_Ok fuel it st s g st' s' g' :
  iteration fuel it st s g = Ok (st', s', g') →
  ∃ candidatos s1 best,
    build_candidates fuel (Z.to_nat (num_ants s)) [] s g = Ok (candidatos, s1, g') ∧
    iteration_best candidatos = Some best ∧
    s' = cycle s1 best ∧
    (best_routes st', best_score st')
    = incumbent_step (best_routes st, best_score st) candidatos ∧
    history st' = history st ++ [candidatos] ∧
    printed st' = (if verbose s then printed st ++ [(it, best.1)] else printed st).
Proof.
  unfold iteration. intros H.
  apply bind_Ok in H as (s0 & s1 & g1 & [= <- <- <-] & H).
  apply bind_Ok in H as (candidatos & s1 & g1 & Hb & H).
  destruct (sort_by_score candidatos) as [|[sb rb] rest] eqn:E; [done|].
  injection H as <- <- <-.
  exists candidatos, s1, (sb, rb). unfold incumbent_step, iteration_best. rewrite E. simpl.
  apply build_candidates_Ok in Hb as Hf. destruct Hf as [Hf _].
  split_and!; try done.
  - by destruct (improves sb (best_score st)).
  - rewrite Hf. by destruct s.
Qed.

(** With no ant, the first iteration raises [IndexError] at [candidatos[0]]. *)
Lemma iteration_no_ants fuel it st s g :
  (num_ants s ≤ 0)%Z → iteration fuel it st s g = Raise IndexError.
Proof.
  intros Hn. unfold iteration, bind, get_self.
  replace (Z.to_nat (num_ants s)) with 0 by lia. done.
Qed.

Lemma run_loop_Ok fuel its st s g st' s' g' :
  run_loop fuel its st s g = Ok (st', s', g') →
  frame s s' ∧
  ∃ hist,
    history st' = history st ++ hist ∧
    length hist = length its ∧
    (∀ cands, cands ∈ hist →
              length cands = Z.to_nat (num_ants s) ∧ is_Some (iteration_best cands)) ∧
    (∀ cands c, cands ∈ hist → c ∈ cands → c.1 = (score_solution s c.2).1.1) ∧
    (best_routes st', best_score st')
    = fold_left incumbent_step hist (best_routes st, best_score st).
Proof.
  revert st s g. induction its as [|it its IH]; intros st s g; simpl.
  - intros [= <- <- <-]. split; [apply frame_refl|]. exists [].
    rewrite app_nil_r. split_and!; try done.
    + intros ? Hc. by apply elem_of_nil in Hc.
    + intros ? ? Hc. by apply elem_of_nil in Hc.
  - intros H. apply bind_Ok in H as (st1 & s1 & g1 & Hit & H).
    apply iteration_Ok in Hit as (cands & s0 & best & Hb & Hbest & -> & Hinc & Hh & _).
    apply build_candidates_Ok in Hb as (Hf0 & new & Hnew & Hlen & Hsc). simpl in Hnew. subst new.
    assert (frame s (cycle s0 best)) as Hf1.
    { eapply frame_trans; [done|]. unfold cycle, reinforce, evaporate.
      eapply frame_trans; apply frame_set. }
    apply IH in H as (Hf2 & hist & Hh2 & Hlen2 & Hants & Hscores & Hfold).
    split; [by eapply frame_trans|].
    exists (cands :: hist). rewrite Hh2, Hh, <- app_assoc. simpl.
    split_and!; [done|lia| | |].
    + intros cs Hcs. apply elem_of_cons in Hcs as [->|Hcs]; [by eauto|].
      destruct (Hants cs Hcs) as [-> ?]. split; [|done]. rewrite Hf1. by destruct s.
    + intros cs c Hcs Hc. apply elem_of_cons in Hcs as [->|Hcs]; [by apply Hsc|].
      rewrite (Hscores cs c Hcs Hc). by rewrite (score_solution_frame s _ _ Hf1).
    + by rewrite Hfold, Hinc.
Qed.

Lemma iteration_range_length (s : ACO_MultiAgent A) :
  length (iteration_range s) = Z.to_nat (iterations s).
Proof. unfold iteration_range. by rewrite length_map, length_seq. Qed.

End LoopFacts.

(** The incumbent [inc] is the best of the candidates [seen] so far. *)
Definition best_of {A : Arith} (inc : option (list route) * score A)
    (seen : list (num * list route)) : Prop :=
  match inc.2 with
  | Inf => seen = [] ∧ inc.1 = None
  | Fin sc => ∃ rutas, inc.1 = Some rutas ∧ (sc, rutas) ∈ seen ∧ minimal_in sc seen
  end.

(** ** Comparable scores *)

(** [<] is a strict weak order on the numbers of [l]: irreflexive,
    transitive, and with a transitive incomparability.  Finite floats
    satisfy it; a NaN among other numbers does not. *)
Definition strict_weak {A : Arith} (l : list num) : bool :=
  forallb
    (fun x =>
       negb (ltb x x) &&
       forallb
         (fun y =>
            forallb
              (fun z =>
                 implb (ltb x y && ltb y z) (ltb x z) &&
                 implb (negb (ltb x y) && negb (ltb y z)) (negb (ltb x z)))
              l)
         l)
    l.

(** Every number of [l] is below [float("inf")]. *)
Definition below_inf {A : Arith} (l : list num) : bool := forallb lt_inf l.

Section ComparableFacts.
Context {A : Arith}.

Lemma forallb_elem {X : Type} (f : X → bool) (l : list X) (x : X) :
  forallb f l = true → x ∈ l → f x = true.
Proof.
  intros H Hx. apply list_elem_of_In in Hx. by eapply forallb_forall in H.
Qed.

Lemma strict_weak_irrefl (l : list num) x :
  strict_weak l = true → x ∈ l → ltb x x = false.
Proof.
  intros H Hx. unfold strict_weak in H. apply (forallb_elem _ _ x) in H; [|done].
  apply andb_true_iff in H as [H _]. by apply negb_true_iff in H.
Qed.

Lemma strict_weak_laws (l : list num) x y z :
  strict_weak l = true → x ∈ l → y ∈ l → z ∈ l →
  (ltb x y = true → ltb y z = true → ltb x z = true) ∧
  (ltb x y = false → ltb y z = false → ltb x z = false).
Proof.
  intros H Hx Hy Hz. unfold strict_weak in H. apply (forallb_elem _ _ x) in H; [|done].
  apply andb_true_iff in H as [_ H].
  apply (forallb_elem _ _ y) in H; [|done]. apply (forallb_elem _ _ z) in H; [|done].
  apply andb_true_iff in H as [H1 H2]. split.
  - intros E1 E2. by rewrite E1, E2 in H1.
  - intros E1 E2. rewrite E1, E2 in H2. simpl in H2. by apply negb_true_iff in H2.
Qed.

Variable dom : list num.
Hypothesis Hsw : strict_weak dom = true.

(** The scores of [l] are among [dom]. *)
Definition scored_in (l : list (num * list route)) : Prop :=
  ∀ c, c ∈ l → c.1 ∈ dom.

Lemma insert_by_score_head_min_on c l :
  c.1 ∈ dom → scored_in l → head_min l → head_min (insert_by_score c l).
Proof.
  intros Hcd Hld. destruct l as [|h l]; simpl.
  - intros _ c' Hc'. apply list_elem_of_singleton in Hc' as ->.
    by eapply strict_weak_irrefl.
  - assert (h.1 ∈ dom) as Hhd by (apply Hld; left).
    intros Hmin. destruct (ltb c.1 h.1) eqn:E; simpl.
    + intros c' Hc'. apply elem_of_cons in Hc' as [->|Hc'];
        [by eapply strict_weak_irrefl|].
      pose proof (Hld c' Hc') as Hc'd. apply Hmin in Hc'.
      apply not_true_iff_false. intros Hlt.
      apply not_true_iff_false in Hc'. apply Hc'.
      by apply (strict_weak_laws dom c'.1 c.1 h.1).
    + intros c' Hc'. apply elem_of_cons in Hc' as [->|Hc']; [apply Hmin; left|].
      apply insert_by_score_elem in Hc' as [->|Hc']; [done|].
      apply Hmin. by right.
Qed.

Lemma sort_by_score_head_min_on l : scored_in l → head_min (sort_by_score l).
Proof.
  unfold sort_by_score.
  assert (∀ acc, scored_in l → scored_in acc → head_min acc →
                 head_min (fold_left (fun sorted c => insert_by_score c sorted) l acc)) as H.
  { induction l as [|h l IH]; intros acc Hl Hacc Hm; simpl; [done|].
    apply IH.
    - intros c Hc. apply Hl. by right.
    - intros c Hc. apply insert_by_score_elem in Hc as [->|Hc];
        [apply Hl; left|by apply Hacc].
    - apply insert_by_score_head_min_on; [apply Hl; left|done..]. }
  intros Hl. apply H; [done| |done]. intros c Hc. by apply elem_of_nil in Hc.
Qed.

(** The iteration-best is a minimum of the candidates. *)
Lemma iteration_best_min_on candidatos c :
  scored_in candidatos → iteration_best candidatos = Some c →
  minimal_in c.1 candidatos.
Proof.
  unfold iteration_best. intros Hd H.
  destruct (sort_by_score candidatos) as [|h l] eqn:E; [done|].
  injection H as ->.
  pose proof (sort_by_score_head_min_on candidatos Hd) as Hm. rewrite E in Hm.
  intros c' Hc'. apply Hm. rewrite <- E. by apply sort_by_score_elem.
Qed.

Lemma iteration_best_elem (candidatos : list (num * list route)) c :
  iteration_best candidatos = Some c → c ∈ candidatos.
Proof.
  unfold iteration_best. intros H.
  destruct (sort_by_score candidatos) as [|h l] eqn:E; [done|].
  injection H as ->. apply sort_by_score_elem. rewrite E. left.
Qed.

Hypothesis Hfin : below_inf dom = true.

Lemma incumbent_step_best_of_on inc seen (cands : list (num * list route)) :
  scored_in seen → scored_in cands →
  is_Some (iteration_best cands) → best_of inc seen →
  best_of (incumbent_step inc cands) (seen ++ cands).
Proof.
  intros Hsd Hcd [[sb rb] Hb] Hinc. unfold incumbent_step. rewrite Hb.
  pose proof (iteration_best_elem _ _ Hb) as Hin.
  pose proof (iteration_best_min_on _ _ Hcd Hb) as Hmin. simpl in Hmin.
  pose proof (Hcd _ Hin) as Hsbd. simpl in Hsbd.
  destruct inc as [r [|x]]; unfold best_of in *; simpl in *.
  - rewrite (forallb_elem _ _ sb Hfin Hsbd). simpl. destruct Hinc as [-> ->].
    exists rb. split_and!; [done|by apply elem_of_app; right|done].
  - destruct Hinc as (rutas & -> & Hx & Hxmin).
    pose proof (Hsd _ Hx) as Hxd. simpl in Hxd.
    destruct (ltb sb x) eqn:E; simpl.
    + exists rb. split_and!; [done|by apply elem_of_app; right|].
      intros c Hc. apply elem_of_app in Hc as [Hc|Hc]; [|by apply Hmin].
      apply not_true_iff_false. intros Hlt.
      specialize (Hxmin c Hc). apply not_true_iff_false in Hxmin. apply Hxmin.
      by apply (strict_weak_laws dom c.1 sb x); [done|apply Hsd|..].
    + exists rutas. split_and!; [done|by apply elem_of_app; left|].
      intros c Hc. apply elem_of_app in Hc as [Hc|Hc]; [by apply Hxmin|].
      by apply (strict_weak_laws dom c.1 sb x); [done|apply Hcd|..|apply Hmin|].
Qed.

Lemma incumbent_fold_best_of_on hist inc seen :
  scored_in seen → scored_in (concat hist) →
  (∀ cands : list (num * list route), cands ∈ hist → is_Some (iteration_best cands)) →
  best_of inc seen →
  best_of (fold_left incumbent_step hist inc) (seen ++ concat hist).
Proof.
  revert inc seen. induction hist as [|cands hist IH]; intros inc seen Hsd Hhd Hne Hinc; simpl.
  - by rewrite app_nil_r.
  - simpl in Hhd. rewrite app_assoc. apply IH.
    + intros c Hc. apply elem_of_app in Hc as [Hc|Hc]; [by apply Hsd|].
      apply Hhd. apply elem_of_app. by left.
    + intros c Hc. apply Hhd. apply elem_of_app. by right.
    + intros cs Hcs. apply Hne. by right.
    + apply incumbent_step_best_of_on; [done| |apply Hne; left|done].
      intros c Hc. apply Hhd. apply elem_of_app. by left.
Qed.

End ComparableFacts.

(** Finite binary64 scores are comparable; a NaN among them is not. *)
Lemma binary64_scores_comparable :
  @strict_weak binary64 [2%float; 1%float; 1%float] = true ∧
  @below_inf binary64 [2%float; 1%float; 1%float] = true ∧
  @strict_weak binary64 [1%float; nan; 2%float] = false ∧
  @below_inf binary64 [infinity] = false.
Proof. vm_compute. done. Qed.

(** The object a computation leaves behind. *)
Definition object_after {X S T : Type} (r : result (X * S * T)) : option S :=
  match r with
  | Ok (_, s, _) => Some s
  | _ => None
  end.

(** The edges the agents move along: for each agent the pairs of
    consecutive nodes of its walk, the move from its start to the first
    recorded node included. *)
Definition travelled_pairs (starts : list node) (rutas : list route)
    : list (node * node) :=
  concat (map (fun sr => consecutive (sr.1 :: nodos_of sr.2)) (zip starts rutas)).

(** One agent that walks from [a0] to [b0] and stays there. *)
Definition one_way : ACO_MultiAgent exact := exact_aco corridor [a0] [b0] [b0] 1 1.

(** C5, counterexample: the only candidate of the iteration is the solution
    [[(0, b0)]], in which the agent traverses the edge [(a0, b0)]; the
    deposit [Q / (score + 1e-9)] is not zero, and after the iteration the
    trail of [(a0, b0)] is the evaporated [0.01 * (1 - rho)] without it. *)
Lemma first_move_gets_no_deposit :
  returned (build_candidates 5 1 [] one_way seed0)
  = Some [(inject_Z 0 : @num exact, [[(0, b0)]])] ∧
  travelled_pairs (starts one_way) [[(0, b0)]] = [(a0, b0)] ∧
  (object_after (iteration 5 1 (mkRun None Inf [] []) one_way seed0)
     ≫= fun s' => pheromone s' !! (a0, b0))
  = Some (mul c_0_01 (sub (of_Z 1) (rho one_way))) ∧
  div (Q one_way) (add (of_Z 0) c_1e_9) ≠ of_Z 0 ∧
  add (mul c_0_01 (sub (of_Z 1) (rho one_way)))
      (div (Q one_way) (add (of_Z 0) c_1e_9))
  ≠ mul c_0_01 (sub (of_Z 1) (rho one_way)).
Proof. vm_compute. split_and!; done. Qed.

Lemma traversals_absent (e : node * node) (l : list (node * node)) :
  e ∉ l → traversals e l = 0.
Proof.
  unfold traversals. induction l as [|x l IH]; intros He; [done|].
  apply not_elem_of_cons in He as [Hne He].
  rewrite filter_cons_False by (intros ->; done). by apply IH.
Qed.

(** C5, as amended: once the candidates of an iteration are built and
    scored (from [s] to [s1]), and unless the divisor [score_best + 1e-9] of
    the deposit is zero (the division then raises [ZeroDivisionError], which
    the total [div] of the model does not show), the iteration returns.  Its
    best is [candidatos[0]] after the stable sort by score: one of the
    candidates, and one of minimum score when [<] is a strict weak order on
    the scores of the candidates.  The new table is the table of [s1] with
    every entry multiplied by [1 - rho] and then, for the routes of the
    iteration-best only, one deposit of [Q / (score_best + 1e-9)] for every
    occurrence of a pair of consecutive recorded nodes: a pair that occurs
    [k] times gets [k] deposits, and a pair that does not occur (the move
    from a start to the first recorded node, unless it is recorded
    elsewhere) gets none.  No other candidate enters the update. *)
Theorem iteration_evaporates_then_reinforces_best {A : Arith} {P : Power A}
    {R : RandomSource A} {C : GaCore A}
    (fuel : nat) (it : Z) (st : run_state) (s : ACO_MultiAgent A) (g : rng)
    (candidatos : list (num * list route)) (s1 : ACO_MultiAgent A) (g1 : rng) :
  (0 < num_ants s)%Z →
  build_candidates fuel (Z.to_nat (num_ants s)) [] s g = Ok (candidatos, s1, g1) →
  (∀ best, iteration_best candidatos = Some best →
           eqb (add best.1 c_1e_9) (of_Z 0) = false) →
  ∃ best st',
    iteration fuel it st s g
    = Ok (st', reinforce (evaporate s1) best.2 best.1, g1) ∧
    iteration_best candidatos = Some best ∧
    best ∈ candidatos ∧
    (strict_weak candidatos.*1 = true → minimal_in best.1 candidatos) ∧
    (∀ e, pheromone (evaporate s1) !! e
          = (fun tau => mul tau (sub (of_Z 1) (rho s))) <$> pheromone s1 !! e) ∧
    (∀ e, pheromone (reinforce (evaporate s1) best.2 best.1) !! e
          = bump (div (Q s) (add best.1 c_1e_9))
              (traversals e (reinforced_pairs best.2))
              (pheromone (evaporate s1) !! e)) ∧
    (∀ e, e ∉ reinforced_pairs best.2 →
          pheromone (reinforce (evaporate s1) best.2 best.1) !! e
          = pheromone (evaporate s1) !! e).
Proof.
  intros Hn Hb _.
  destruct (build_candidates_Ok _ _ _ _ _ _ _ _ Hb) as (Hf & new & Hnew & Hlen & _).
  simpl in Hnew. subst new.
  assert (rho s1 = rho s ∧ Q s1 = Q s) as [Hrho HQ].
  { rewrite Hf. by destruct s. }
  destruct (sort_by_score candidatos) as [|[sb rb] rest] eqn:E.
  { apply sort_by_score_nil in E. subst candidatos. simpl in Hlen. lia. }
  assert (iteration_best candidatos = Some (sb, rb)) as Hbest.
  { unfold iteration_best. by rewrite E. }
  assert (∀ e, pheromone (reinforce (evaporate s1) rb sb) !! e
               = bump (div (Q s) (add sb c_1e_9))
                   (traversals e (reinforced_pairs rb))
                   (pheromone (evaporate s1) !! e)) as Hlook.
  { intros e. rewrite reinforce_lookup.
    change (Q (evaporate s1)) with (Q s1). by rewrite HQ. }
  eexists (sb, rb), _. split; [|split; [exact Hbest|]].
  { unfold iteration, bind, get_self. rewrite Hb, E. reflexivity. }
  split; [by eapply iteration_best_elem|]. split.
  { intros Hsw. apply (iteration_best_min_on candidatos.*1 Hsw); [|done].
    intros c Hc. by apply list_elem_of_fmap_2. }
  split.
  { intros e. rewrite evaporate_lookup. by rewrite Hrho. }
  split; [exact Hlook|].
  intros e He. rewrite Hlook. by rewrite traversals_absent.
Qed.

(** The candidates of two ants on the corridor round trip. *)
Definition round_trip_candidates : list (@num exact * list route) :=
  Eval vm_compute in
    default [] (returned (build_candidates 5 2 []
                            (exact_aco corridor [a0] [b0] [a0] 2 1) seed0)).

(** C5, witness: one iteration with two ants on the corridor round trip. *)
Lemma iteration_evaporates_then_reinforces_best_witness :
  ∃ (s1 : ACO_MultiAgent exact) g1 best st',
    iteration 5 1 (mkRun None Inf [] []) (exact_aco corridor [a0] [b0] [a0] 2 1) seed0
    = Ok (st', reinforce (evaporate s1) best.2 best.1, g1) ∧
    best ∈ round_trip_candidates ∧
    minimal_in best.1 round_trip_candidates ∧
    pheromone (reinforce (evaporate s1) best.2 best.1) !! (a0, b0)
    = pheromone (evaporate s1) !! (a0, b0).
Proof.
  destruct (Ok_of_returned
              (build_candidates 5 2 [] (exact_aco corridor [a0] [b0] [a0] 2 1) seed0)
              round_trip_candidates) as (s1 & g1 & E).
  { vm_compute. reflexivity. }
  destruct (iteration_evaporates_then_reinforces_best 5 1 (mkRun None Inf [] [])
              (exact_aco corridor [a0] [b0] [a0] 2 1) seed0
              round_trip_candidates s1 g1 ltac:(vm_compute; reflexivity) E)
    as (best & st' & H1 & H2 & H3 & H4 & _ & _ & H5).
  { intros best Hb. vm_compute in Hb. injection Hb as <-. vm_compute. reflexivity. }
  exists s1, g1, best, st'.
  split; [exact H1|]. split; [exact H3|]. split.
  - apply H4. vm_compute. reflexivity.
  - apply H5. vm_compute in H2. injection H2 as <-.
    vm_compute. intros Hin. repeat (apply elem_of_cons in Hin as [[=]|Hin]).
    by apply elem_of_nil in Hin.
Defined.

(** The claim that [run] returns: some step budget lets it end, with a
    result or with an exception. *)
Definition run_settles {A : Arith} {P : Power A} {R : RandomSource A}
    {C : GaCore A} (s : ACO_MultiAgent A) : Prop :=
  ∃ fuel g, run fuel s g ≠ OutOfFuel.

(** C6, counterexample: one ant and one iteration in the corridor with the
    isolated cell as pickup.  No step budget and no sequence of draws lets
    [run] end: the first construction never leaves the loop, no iteration
    is completed and nothing is returned. *)
Lemma run_never_returns_on_unreachable_pickup :
  ¬ @run_settles exact exact_pow (scripted exact) exact_core
      (exact_aco corridor [a0] [c0] [c0] 1 1).
Proof.
  intros (fuel & g & H). apply H.
  unfold run, run_full, bind, get_self. simpl.
  unfold iteration, bind, get_self. simpl.
  unfold build_solution_multi, bind, get_self. simpl.
  unfold bind, get_self, index. simpl.
  unfold build_route_single, bind.
  by rewrite corridor_walk_runs; [| |left].
Qed.

Section RunOutcome.
Context {A : Arith}.

(** One more iteration: the incumbent is replaced exactly when the score of
    the iteration-best is strictly below the score of the incumbent. *)
Lemma incumbent_snoc (h1 : list (list (num * list route)))
    (cands : list (num * list route)) sb rb :
  iteration_best cands = Some (sb, rb) →
  incumbent (h1 ++ [cands])
  = if match (incumbent h1).2 with
       | Inf => lt_inf sb
       | Fin b => ltb sb b
       end
    then (Some rb, Fin sb) else incumbent h1.
Proof.
  intros Hb. unfold incumbent. rewrite fold_left_app. simpl.
  unfold incumbent_step at 1. rewrite Hb. unfold improves.
  by destruct (fold_left incumbent_step h1 (None, Inf)).2.
Qed.

End RunOutcome.

(** C6, as amended: [run] need not return.  When it returns, it has made
    exactly [iterations] iterations of exactly [num_ants] candidates each,
    every one scored by [score_solution], and the pair it returns is the
    incumbent obtained iteration after iteration, starting from
    [(None, inf)]: the incumbent is replaced by the iteration-best exactly
    when [score_best < best_score], so a tie keeps the earlier solution and
    a score that is not below [inf] never replaces [(None, inf)].  When [<]
    is a strict weak order on the scores of the candidates and all of them
    are below [inf], the returned score is [inf] with no routes when there
    was no iteration, and otherwise the score of a constructed candidate
    below which no candidate scores, returned with its routes.  With one
    ant and one iteration the returned pair is the single solution with its
    score when that score is below [inf], and [(None, inf)] otherwise. *)
Theorem run_returns_minimum {A : Arith} {P : Power A} {R : RandomSource A}
    {C : GaCore A}
    (fuel : nat) (s : ACO_MultiAgent A) (g : rng)
    (st : run_state) (s' : ACO_MultiAgent A) (g' : rng) :
  run_full fuel s g = Ok (st, s', g') →
  run fuel s g = Ok ((best_routes st, best_score st), s', g') ∧
  length (history st) = Z.to_nat (iterations s) ∧
  (∀ cands, cands ∈ history st → length cands = Z.to_nat (num_ants s)) ∧
  (∀ cands c, cands ∈ history st → c ∈ cands →
              c.1 = (score_solution s c.2).1.1) ∧
  (best_routes st, best_score st) = incumbent (history st) ∧
  (∀ h1 cands h2 sb rb,
     history st = h1 ++ cands :: h2 → iteration_best cands = Some (sb, rb) →
     incumbent (h1 ++ [cands])
     = if match (incumbent h1).2 with
          | Inf => lt_inf sb
          | Fin b => ltb sb b
          end
       then (Some rb, Fin sb) else incumbent h1) ∧
  (strict_weak (concat (history st)).*1 = true →
   below_inf (concat (history st)).*1 = true →
   best_of (best_routes st, best_score st) (concat (history st))) ∧
  (num_ants s = 1%Z → iterations s = 1%Z →
   ∃ sc rutas,
     history st = [[(sc, rutas)]] ∧
     (best_routes st, best_score st)
     = if lt_inf sc then (Some rutas, Fin sc) else (None, Inf)).
Proof.
  intros H. assert (run fuel s g = Ok ((best_routes st, best_score st), s', g')) as Hrun.
  { unfold run, bind. by rewrite H. }
  unfold run_full in H. apply bind_Ok in H as (s0 & s1 & g1 & [= <- <- <-] & H).
  apply run_loop_Ok in H as (_ & hist & Hh & Hlen & Hants & Hsc & Hinc).
  simpl in Hh, Hinc. subst hist. rewrite iteration_range_length in Hlen.
  split_and!; try done.
  - intros cs Hcs. by apply Hants.
  - intros h1 cands h2 sb rb _ Hb. by apply incumbent_snoc.
  - intros Hsw Hfin. rewrite Hinc.
    apply (incumbent_fold_best_of_on _ Hsw Hfin (history st) (None, Inf) []).
    + intros c Hc. by apply elem_of_nil in Hc.
    + intros c Hc. by apply list_elem_of_fmap_2.
    + intros cs Hcs. by apply Hants.
    + done.
  - intros Hn Hi. rewrite Hi in Hlen.
    destruct (history st) as [|cands [|? ?]] eqn:Eh; try done.
    destruct (Hants cands ltac:(left)) as [Hl _]. rewrite Hn in Hl.
    destruct cands as [|[sc rutas] [|? ?]]; try done.
    exists sc, rutas. split; [done|]. rewrite Hinc.
    unfold incumbent_step, iteration_best. simpl. by destruct (lt_inf sc).
Qed.

(** One agent on the 2x2 grid, from a corner to the opposite corner: two
    iterations of one ant. *)
Definition corner_aco : ACO_MultiAgent exact :=
  exact_aco square [(0, 0)%Z] [(1, 1)%Z] [(1, 1)%Z] 1 2.

(** The draws that lead the first ant over [(0, 1)] and the second over
    [(1, 0)]. *)
Definition seed2 : @rng exact (scripted exact) :=
  ([Qmake 1 10; Qmake 99 100; Qmake 1 2; Qmake 99 100], []).

(** The local state of [run] at the end of that run. *)
Definition corner_run : @run_state exact :=
  Eval vm_compute in
    default (mkRun None Inf [] []) (returned (run_full 5 corner_aco seed2)).

(** C6, witness: the two iterations tie at score [1] with different routes;
    the run returns the solution of the first. *)
Lemma run_returns_minimum_witness :
  ∃ s' g',
    run 5 corner_aco seed2
    = Ok ((best_routes corner_run, best_score corner_run), s', g') ∧
    length (history corner_run) = 2 ∧
    best_of (best_routes corner_run, best_score corner_run)
      (concat (history corner_run)) ∧
    history corner_run
    = [[(inject_Z 1, [[(0, (0, 1)%Z); (1, (1, 1)%Z)]])];
       [(inject_Z 1, [[(0, (1, 0)%Z); (1, (1, 1)%Z)]])]] ∧
    best_routes corner_run = Some [[(0, (0, 1)%Z); (1, (1, 1)%Z)]] ∧
    incumbent (history corner_run)
    = incumbent [[(inject_Z 1 : @num exact, [[(0, (0, 1)%Z); (1, (1, 1)%Z)]])]].
Proof.
  destruct (Ok_of_returned (run_full 5 corner_aco seed2) corner_run) as (s' & g' & E).
  { vm_compute. reflexivity. }
  destruct (run_returns_minimum 5 corner_aco seed2 corner_run s' g' E)
    as (H1 & H2 & _ & _ & _ & H3 & H4 & _).
  exists s', g'.
  split; [exact H1|]. split; [exact H2|]. split.
  { apply H4; vm_compute; reflexivity. }
  split; [reflexivity|]. split; [reflexivity|].
  exact (H3 [[(inject_Z 1 : @num exact, [[(0, (0, 1)%Z); (1, (1, 1)%Z)]])]]
            [(inject_Z 1 : @num exact, [[(0, (1, 0)%Z); (1, (1, 1)%Z)]])] []
            (inject_Z 1) [[(0, (1, 0)%Z); (1, (1, 1)%Z)]] eq_refl eq_refl).
Defined.

(** ** Configuration *)

(** A configuration with [rho = 0] and [Q = 0]. *)
Definition lax_aco : ACO_MultiAgent exact :=
  @init exact corridor [a0] [b0] [a0] (inject_Z 1) (inject_Z 3) (inject_Z 0)
    (inject_Z 0) 1 1 (inject_Z 6) (inject_Z 1) (inject_Z 1000) true.

(** C8, counterexample: [rho = 0] and [Q = 0] are accepted; the run executes
    its iteration, prints its line and returns the round trip with score 1. *)
Lemma nonpositive_rho_and_Q_accepted :
  @leb exact (rho lax_aco) (inject_Z 0) = true ∧
  @leb exact (Q lax_aco) (inject_Z 0) = true ∧
  (fun st => (length (history st), printed st)) <$> returned (run_full 5 lax_aco seed0)
  = Some (1, [(1%Z, inject_Z 1 : @num exact)]) ∧
  returned (run 5 lax_aco seed0)
  = Some (Some [[(0, b0); (1, a0)]], @Fin exact (inject_Z 1)).
Proof. vm_compute. done. Qed.

Section Configuration.
Context {A : Arith} {P : Power A} {R : RandomSource A} {C : GaCore A}.

Lemma run_no_iterations fuel (s : ACO_MultiAgent A) g :
  (iterations s ≤ 0)%Z → run fuel s g = Ok ((None, Inf), s, g).
Proof.
  intros Hi. unfold run, run_full, bind, get_self, iteration_range.
  by replace (Z.to_nat (iterations s)) with 0 by lia.
Qed.

Lemma run_no_ants fuel (s : ACO_MultiAgent A) g :
  (num_ants s ≤ 0)%Z → (0 < iterations s)%Z → run fuel s g = Raise IndexError.
Proof.
  intros Hn Hi.
  assert (run_full fuel s g = Raise IndexError) as H.
  { change (run_full fuel s g)
      with (run_loop fuel (iteration_range s) (mkRun None Inf [] []) s g).
    unfold iteration_range.
    destruct (Z.to_nat (iterations s)) as [|n] eqn:E; [lia|].
    simpl. unfold bind. by rewrite iteration_no_ants. }
  unfold run, bind. by rewrite H.
Qed.

End Configuration.

(** C8, as amended: nothing validates the configuration.  The constructor
    stores [rho], [Q], [num_ants] and [iterations] as given.  With
    [iterations <= 0] the loop body never runs and [run] returns
    [(None, inf)] without an error, leaving the object and the generator
    untouched; with [num_ants <= 0] and [iterations >= 1] the first
    iteration raises [IndexError] at [candidatos[0]]. *)
Theorem no_configuration_check {A : Arith} {P : Power A} {R : RandomSource A}
    {C : GaCore A} (fuel : nat) (s : ACO_MultiAgent A) (g : rng) :
  ((iterations s ≤ 0)%Z → run fuel s g = Ok ((None, Inf), s, g)) ∧
  ((num_ants s ≤ 0)%Z → (0 < iterations s)%Z → run fuel s g = Raise IndexError) ∧
  (∀ G0 st pk dr al be rh q na it ms wd wc vb,
     let s0 := @init A G0 st pk dr al be rh q na it ms wd wc vb in
     rho s0 = rh ∧ Q s0 = q ∧ num_ants s0 = na ∧ iterations s0 = it).
Proof.
  split; [apply run_no_iterations|]. split; [apply run_no_ants|]. done.
Qed.

(** C8, witness: zero iterations return [(None, inf)]; zero ants raise. *)
Lemma no_configuration_check_witness :
  run 5 (exact_aco corridor [a0] [b0] [a0] 2 0) seed0
  = Ok ((None, Inf), exact_aco corridor [a0] [b0] [a0] 2 0, seed0) ∧
  run 5 (exact_aco corridor [a0] [b0] [a0] 0 3) seed0 = Raise IndexError.
Proof.
  split.
  - apply (no_configuration_check 5 (exact_aco corridor [a0] [b0] [a0] 2 0) seed0).
    vm_compute. discriminate.
  - apply (no_configuration_check 5 (exact_aco corridor [a0] [b0] [a0] 0 3) seed0).
    + vm_compute. discriminate.
    + reflexivity.
Defined.

(** ** The parameters [MIN_SEP] and [w_dist] *)

(** The same outcome with the object changed by [f]. *)
Definition relabel {A : Arith} {X T : Type}
    (f : ACO_MultiAgent A → ACO_MultiAgent A)
    (r : result (X * ACO_MultiAgent A * T)) : result (X * ACO_MultiAgent A * T) :=
  match r with
  | Ok (x, s, g) => Ok (x, f s, g)
  | Raise e => Raise e
  | OutOfFuel => OutOfFuel
  end.

(** What a caller can observe of an outcome: the value, the pheromone table
    and the generator. *)
Definition observable {A : Arith} {X T : Type}
    (r : result (X * ACO_MultiAgent A * T))
    : result (X * gmap (node * node) num * T) :=
  match r with
  | Ok (x, s, g) => Ok (x, pheromone s, g)
  | Raise e => Raise e
  | OutOfFuel => OutOfFuel
  end.

Section Unused.
Context {A : Arith} {P : Power A} {R : RandomSource A} {C : GaCore A}.
Variables ms wd : num.

Local Abbreviation u := (set_unused ms wd).

Lemma relabel_bind {X Y : Type} (m : M X) (k : X → M Y) s g :
  m (u s) g = relabel u (m s g) →
  (∀ x s g, k x (u s) g = relabel u (k x s g)) →
  bind m k (u s) g = relabel u (bind m k s g).
Proof.
  intros Hm Hk. unfold bind. rewrite Hm.
  destruct (m s g) as [[[x s1] g1]| |]; simpl; [apply Hk|done..].
Qed.

Lemma relabel_bind_self {Y : Type} (k : ACO_MultiAgent A → M Y) s g :
  (∀ s0 s g, k (u s0) (u s) g = relabel u (k s0 s g)) →
  bind get_self k (u s) g = relabel u (bind get_self k s g).
Proof. intros Hk. unfold bind, get_self. apply Hk. Qed.

Lemma unused_pheromone_get k s g :
  pheromone_get k (u s) g = relabel u (pheromone_get k s g).
Proof. unfold pheromone_get. simpl. by destruct (pheromone s !! k). Qed.

Lemma unused_choose_weights n t oc vecinos probs total s g :
  choose_weights n t oc vecinos probs total (u s) g
  = relabel u (choose_weights n t oc vecinos probs total s g).
Proof.
  revert probs total s g. induction vecinos as [|v rest IH]; intros probs total s g; [done|].
  simpl. apply relabel_bind; [apply unused_pheromone_get|].
  intros tau s1 g1. unfold bind, get_self. apply IH.
Qed.

Lemma unused_random_choice {X : Type} (l : list X) s g :
  random_choice l (u s) g = relabel u (random_choice l s g).
Proof.
  destruct l as [|x l]; [done|]. unfold random_choice.
  destruct (randbelow _ g) as [i g1]. by destruct (_ !! i).
Qed.

Lemma unused_choose_next n t oc s g :
  choose_next n t oc (u s) g = relabel u (choose_next n t oc s g).
Proof.
  unfold choose_next. apply relabel_bind.
  { rewrite !G_get_eq. simpl. by destruct (G s !! n). }
  intros vecinos s1 g1. apply relabel_bind; [apply unused_choose_weights|].
  intros [probs total] s2 g2.
  destruct (match vecinos with [] => true | _ :: _ => eqb total (of_Z 0) end).
  { apply unused_random_choice. }
  apply relabel_bind.
  { unfold random. by destruct (random_random g2). }
  intros r s3 g3. destruct (choose_pick _ _ _); [done|]. by destruct (last vecinos).
Qed.

Lemma unused_walk fuel target curr t ruta oc s g :
  walk fuel target curr t ruta oc (u s) g
  = relabel u (walk fuel target curr t ruta oc s g).
Proof.
  revert curr t ruta oc s g. induction fuel as [|fuel IH]; intros curr t ruta oc s g;
    simpl; case_bool_decide; try done.
  apply relabel_bind; [apply unused_choose_next|]. intros nxt s1 g1. apply IH.
Qed.

Lemma unused_build_route_single fuel start mid end_ oc s g :
  build_route_single fuel start mid end_ oc (u s) g
  = relabel u (build_route_single fuel start mid end_ oc s g).
Proof.
  unfold build_route_single. apply relabel_bind; [apply unused_walk|].
  intros [[t1 r1] oc1] s1 g1. apply relabel_bind; [apply unused_walk|].
  by intros [[t2 r2] oc2] s2 g2.
Qed.

Lemma unused_index {X : Type} (l : list X) i s g :
  index l i (u s) g = relabel u (index l i s g).
Proof. unfold index. by destruct (l !! i). Qed.

Lemma unused_build_agents fuel idxs rutas oc s g :
  build_agents fuel idxs rutas oc (u s) g
  = relabel u (build_agents fuel idxs rutas oc s g).
Proof.
  revert rutas oc s g. induction idxs as [|i idxs IH]; intros rutas oc s g; [done|].
  simpl. apply relabel_bind_self. clear s g. intros s0 s g.
  apply (relabel_bind (index (starts s0) i)); [apply unused_index|]. intros x1 s1 g1.
  apply (relabel_bind (index (pickups s0) i)); [apply unused_index|]. intros x2 s2 g2.
  apply (relabel_bind (index (drops s0) i)); [apply unused_index|]. intros x3 s3 g3.
  apply relabel_bind; [apply unused_build_route_single|].
  intros [ruta oc'] s4 g4. apply IH.
Qed.

Lemma unused_build_solution_multi fuel s g :
  build_solution_multi fuel (u s) g = relabel u (build_solution_multi fuel s g).
Proof.
  unfold build_solution_multi. apply relabel_bind_self. clear s g. intros s0 s g.
  apply (unused_build_agents fuel (seq 0 (num_agents s0))).
Qed.

Lemma unused_build_candidates fuel n acc s g :
  build_candidates fuel n acc (u s) g = relabel u (build_candidates fuel n acc s g).
Proof.
  revert acc s g. induction n as [|n IH]; intros acc s g; [done|].
  simpl. apply relabel_bind; [apply unused_build_solution_multi|].
  intros rutas s1 g1. apply relabel_bind_self. clear s1 g1. intros s0 s1 g1.
  change (score_solution (u s0) rutas) with (score_solution s0 rutas).
  destruct (score_solution s0 rutas) as [[sc d] cf]. apply IH.
Qed.

Lemma unused_iteration fuel it st s g :
  iteration fuel it st (u s) g = relabel u (iteration fuel it st s g).
Proof.
  unfold iteration. apply relabel_bind_self. clear s g. intros s0 s g.
  apply (relabel_bind (build_candidates fuel (Z.to_nat (num_ants s0)) []));
    [apply unused_build_candidates|].
  intros cands s1 g1. by destruct (sort_by_score cands) as [|[sb rb] rest].
Qed.

Lemma unused_run_loop fuel its st s g :
  run_loop fuel its st (u s) g = relabel u (run_loop fuel its st s g).
Proof.
  revert st s g. induction its as [|it its IH]; intros st s g; [done|].
  simpl. apply relabel_bind; [apply unused_iteration|]. intros st1 s1 g1. apply IH.
Qed.

Lemma unused_run fuel s g : run fuel (u s) g = relabel u (run fuel s g).
Proof.
  unfold run. apply relabel_bind; [|done].
  unfold run_full. apply relabel_bind_self. clear s g. intros s0 s g.
  apply (unused_run_loop fuel (iteration_range s0)).
Qed.

Lemma observable_relabel {X T : Type} (r : result (X * ACO_MultiAgent A * T)) :
  observable (relabel u r) = observable r.
Proof. by destruct r as [[[x s] g]| |]. Qed.

End Unused.

(** C10, theorem: two objects constructed from the same graph, agents and
    other parameters, differing only in [MIN_SEP] and [w_dist], give under
    the same step budget and the same random draws the same outcome of
    [run]: the same routes and score (or the same exception), the same
    pheromone table and the same generator state. *)
Theorem unused_parameters_do_not_matter {A : Arith} {P : Power A}
    {R : RandomSource A} {C : GaCore A}
    (G0 : gmap node (list node)) (st pk dr : list node) (al be rh q : num)
    (na it : Z) (wc : num) (vb : bool) (ms1 wd1 ms2 wd2 : num)
    (fuel : nat) (g : rng) :
  observable (run fuel (init G0 st pk dr al be rh q na it ms1 wd1 wc vb) g)
  = observable (run fuel (init G0 st pk dr al be rh q na it ms2 wd2 wc vb) g).
Proof.
  change (init G0 st pk dr al be rh q na it ms1 wd1 wc vb)
    with (set_unused ms1 wd1 (init G0 st pk dr al be rh q na it ms2 wd2 wc vb)).
  by rewrite unused_run, observable_relabel.
Qed.

(** ** The transition rule *)

(** The trail a read of the [defaultdict] gives for the edge [(u, v)]. *)
Definition trail {A : Arith} (s : ACO_MultiAgent A) (u v : node) : num :=
  default c_0_01 (pheromone s !! (u, v)).

(** The desirability of the neighbour [v] of [u] as the code computes it. *)
Definition desirability {A : Arith} {P : Power A} {C : GaCore A}
    (s : ACO_MultiAgent A) (t : nat) (oc : gmap (nat * node) bool)
    (u v : node) : num :=
  weight s (penal t oc v) (trail s u v) u v.

(** The desirability as the specification writes it:
    [penalty * trail ^ alpha * (1 / dist) ^ beta]. *)
Definition claimed_desirability {A : Arith} {P : Power A} {C : GaCore A}
    (s : ACO_MultiAgent A) (t : nat) (oc : gmap (nat * node) bool)
    (u v : node) : num :=
  mul (mul (penal t oc v) (pow (trail s u v) (alpha s)))
      (pow (div (of_Z 1) (dist u v)) (beta s)).

(** The cumulated probabilities [acc + p1], [acc + p1 + p2], ... *)
Fixpoint prefix_sums {A : Arith} (acc : num) (ps : list num) : list num :=
  match ps with
  | [] => []
  | p :: ps' => add acc p :: prefix_sums (add acc p) ps'
  end.

(** The weighted draw: the first neighbour whose cumulated probability
    reaches [r], and the last neighbour when none does. *)
Definition draw_neighbor {A : Arith} (r : num) (vecinos : list node)
    (probs : list num) : option node :=
  match list_find (fun vc => leb r vc.2 = true)
          (zip vecinos (prefix_sums (of_Z 0) probs)) with
  | Some (_, (v, _)) => Some v
  | None => last vecinos
  end.

(** The transition rule in the words of the specification, with the
    heuristic of the code: the node [choose_next] returns, if any. *)
Definition choose_next_spec {A : Arith} {P : Power A} {R : RandomSource A}
    {C : GaCore A} (u : node) (t : nat) (oc : gmap (nat * node) bool)
    (s : ACO_MultiAgent A) (g : rng) : option node :=
  match G s !! u with
  | None => None
  | Some vecinos =>
      let ws := map (desirability s t oc u) vecinos in
      let total := fold_left add ws (of_Z 0) in
      match vecinos with
      | [] => None
      | _ :: _ =>
          if eqb total (of_Z 0)
          then vecinos !! (randbelow (length vecinos) g).1
          else draw_neighbor (random_random g).1 vecinos
                 (map (fun w => div w total) ws)
      end
  end.

Section TransitionFacts.
Context {A : Arith} {P : Power A} {R : RandomSource A} {C : GaCore A}.

(** Reads of the table change no trail. *)
Definition same_trails (s s' : ACO_MultiAgent A) : Prop :=
  ∀ u v, trail s' u v = trail s u v.

Lemma pheromone_get_trail k s g :
  ∃ s', pheromone_get k s g = Ok (trail s k.1 k.2, s', g) ∧
        frame s s' ∧ same_trails s s'.
Proof.
  unfold pheromone_get, trail. destruct k as [u v]. simpl.
  destruct (pheromone s !! (u, v)) as [tau|] eqn:E.
  - exists s. split_and!; [done|apply frame_refl|done].
  - eexists. split_and!; [done|apply frame_set|].
    intros u' v'. unfold trail. simpl.
    destruct (decide ((u, v) = (u', v'))) as [[= <- <-]|Hne].
    + by rewrite lookup_insert_eq, E.
    + by rewrite lookup_insert_ne.
Qed.

Lemma desirability_frame s s' t oc u v :
  frame s s' → same_trails s s' → desirability s' t oc u v = desirability s t oc u v.
Proof.
  intros Hf Ht. unfold desirability, weight. rewrite Ht.
  rewrite Hf. by destruct s.
Qed.

Lemma choose_weights_spec u t oc vecinos probs total s g :
  ∃ s', choose_weights u t oc vecinos probs total s g
        = Ok ((probs ++ map (desirability s t oc u) vecinos,
               fold_left add (map (desirability s t oc u) vecinos) total), s', g) ∧
        frame s s' ∧ same_trails s s'.
Proof.
  revert probs total s. induction vecinos as [|v rest IH]; intros probs total s; simpl.
  - exists s. rewrite app_nil_r. split_and!; [done|apply frame_refl|done].
  - destruct (pheromone_get_trail (u, v) s g) as (s1 & Hget & Hf1 & Ht1).
    unfold bind at 1. rewrite Hget. unfold bind, get_self. simpl.
    destruct (IH (probs ++ [weight s1 (penal t oc v) (trail s u v) u v])
                 (add total (weight s1 (penal t oc v) (trail s u v) u v)) s1)
      as (s2 & Hw & Hf2 & Ht2).
    exists s2. rewrite Hw.
    assert (weight s1 (penal t oc v) (trail s u v) u v = desirability s t oc u v) as ->.
    { unfold desirability, weight. rewrite Hf1. by destruct s. }
    assert (map (desirability s1 t oc u) rest = map (desirability s t oc u) rest) as ->.
    { apply map_ext. intros w. by apply desirability_frame. }
    rewrite <- app_assoc. split_and!; [done|by eapply frame_trans|].
    intros u' v'. by rewrite Ht2, Ht1.
Qed.

Lemma choose_pick_find r acc vecinos probs :
  choose_pick r acc (zip vecinos probs)
  = (fun x => x.2.1) <$> list_find (fun vc => leb r vc.2 = true)
                           (zip vecinos (prefix_sums acc probs)).
Proof.
  revert acc probs. induction vecinos as [|v vecinos IH]; intros acc [|p probs]; try done.
  simpl. rewrite IH.
  match goal with |- context [decide ?Q] => destruct (decide Q) as [E|E] end.
  - by rewrite E.
  - apply not_true_is_false in E. rewrite E.
    by destruct (list_find _ _) as [[i [w c]]|].
Qed.

Lemma random_choice_returned {X : Type} (l : list X) s g :
  returned (random_choice l s g) = l !! (randbelow (length l) g).1.
Proof.
  destruct l as [|x l]; [done|]. unfold random_choice.
  generalize (randbelow (length (x :: l)) g). intros [i g1]. simpl fst.
  by destruct ((x :: l) !! i).
Qed.

(** [choose_next] returns exactly the node of the rule above. *)
Lemma choose_next_refines u t oc s g :
  returned (choose_next u t oc s g) = choose_next_spec u t oc s g.
Proof.
  unfold choose_next, choose_next_spec. unfold bind at 1. rewrite G_get_eq.
  destruct (G s !! u) as [vecinos|]; [|done].
  unfold bind at 1.
  destruct (choose_weights_spec u t oc vecinos [] (of_Z 0) s g) as (s1 & -> & _ & _).
  simpl app. destruct vecinos as [|v0 rest]; [done|].
  set (vecinos := v0 :: rest).
  set (ws := map (desirability s t oc u) vecinos).
  destruct (eqb (fold_left add ws (of_Z 0)) (of_Z 0)).
  - apply random_choice_returned.
  - unfold bind, random, draw_neighbor. destruct (random_random g) as [r g1]. simpl fst.
    rewrite choose_pick_find.
    destruct (list_find _ _) as [[i [w c]]|]; [done|]. simpl.
    by destruct (last vecinos).
Qed.

End TransitionFacts.



(** * Further properties of the planner *)

(** ** Move costs *)

(** The sum [dy + dx] that [dist] tests. *)
Definition displacement (a b : node) : Z :=
  (Z.abs (a.1 - b.1) + Z.abs (a.2 - b.2))%Z.

(** X1: [dist] does not depend on the direction of the move.  It charges
    [MOVE_DIAG] when [dy + dx] is [2] and [MOVE_ORTH] in every other case:
    a diagonal neighbour and a cell two steps away in a straight line cost
    [MOVE_DIAG]; staying on the cell and a knight's move cost [MOVE_ORTH]. *)
Theorem dist_by_displacement {A : Arith} {C : GaCore A} (a b : node) :
  dist a b = dist b a ∧
  (displacement a b = 2%Z → dist a b = MOVE_DIAG) ∧
  (displacement a b ≠ 2%Z → dist a b = MOVE_ORTH) ∧
  dist a a = MOVE_ORTH ∧
  dist a (a.1 + 1, a.2 + 1)%Z = MOVE_DIAG ∧
  dist a (a.1 + 2, a.2)%Z = MOVE_DIAG ∧
  dist a (a.1 + 1, a.2 + 2)%Z = MOVE_ORTH.
Proof.
  assert (∀ x y : node, dist x y
            = if (displacement x y =? 2)%Z then MOVE_DIAG else MOVE_ORTH) as Hd
    by reflexivity.
  split_and!.
  - rewrite !Hd. replace (displacement b a) with (displacement a b); [done|].
    unfold displacement. lia.
  - intros H. rewrite Hd. by apply Z.eqb_eq in H as ->.
  - intros H. rewrite Hd. by apply Z.eqb_neq in H as ->.
  - rewrite Hd. replace (displacement a a) with 0%Z; [done|].
    unfold displacement. lia.
  - rewrite Hd. replace (displacement _ _) with 2%Z; [done|].
    unfold displacement. simpl. lia.
  - rewrite Hd. replace (displacement _ _) with 2%Z; [done|].
    unfold displacement. simpl. lia.
  - rewrite Hd. replace (displacement _ _) with 3%Z; [done|].
    unfold displacement. simpl. lia.
Qed.

(** ** The initial pheromone table *)

Section InitFacts.
Context {A : Arith}.

Lemma init_row_lookup (u : node) (vs : list node) (ph : gmap (node * node) num)
    (e : node * node) :
  is_Some (fold_left (fun ph v => <[(u, v) := c_0_01]> ph) vs ph !! e)
  ↔ is_Some (ph !! e) ∨ (e.1 = u ∧ e.2 ∈ vs).
Proof.
  revert ph. induction vs as [|v vs IH]; intros ph; simpl.
  - split; [by left|]. intros [?|[_ H]]; [done|]. by apply elem_of_nil in H.
  - rewrite IH. destruct (decide ((u, v) = e)) as [<-|Hne].
    + rewrite lookup_insert_eq. simpl. split.
      * intros _. right. split.
        -- reflexivity.
        -- apply elem_of_cons. by left.
      * intros _. left. by eapply mk_is_Some.
    + rewrite lookup_insert_ne by done. rewrite elem_of_cons.
      split; [tauto|]. intros [?|[Hu [Hv|?]]]; [tauto| |tauto].
      destruct e as [u' v']. simpl in *. exfalso. apply Hne. by subst.
Qed.

Lemma init_rows_lookup (l : list (node * list node)) (ph : gmap (node * node) num)
    (e : node * node) :
  is_Some (fold_left
             (fun ph uvs => fold_left (fun ph v => <[(uvs.1, v) := c_0_01]> ph) uvs.2 ph)
             l ph !! e)
  ↔ is_Some (ph !! e) ∨ ∃ vs, (e.1, vs) ∈ l ∧ e.2 ∈ vs.
Proof.
  revert ph. induction l as [|[u vs] l IH]; intros ph; simpl.
  - split; [by left|]. intros [?|(vs & H & _)]; [done|]. by apply elem_of_nil in H.
  - rewrite IH, init_row_lookup. split.
    + intros [[?|[<- Hv]]|(vs' & Hin & Hv)].
      * by left.
      * right. exists vs. split; [left|done].
      * right. exists vs'. split; [by right|done].
    + intros [?|(vs' & Hin & Hv)]; [by left; left|].
      apply elem_of_cons in Hin as [[= -> ->]|Hin].
      * left. by right.
      * right. by exists vs'.
Qed.

End InitFacts.

(** X2: After [__init__] the pheromone table has an entry exactly for the pairs
    [(u, v)] with [v] listed in [G[u]], and every entry is [0.01]. *)
Theorem init_pheromone_keys {A : Arith} (G0 : gmap node (list node))
    (u v : node) :
  (is_Some (init_pheromone G0 !! (u, v)) ↔ edge G0 u v) ∧
  (∀ tau, init_pheromone G0 !! (u, v) = Some tau → tau = c_0_01).
Proof.
  split.
  - unfold init_pheromone. rewrite init_rows_lookup. simpl. unfold edge. split.
    + intros [[? H]|(vs & Hin & Hv)]; [by rewrite lookup_empty in H|].
      exists vs. split; [|done]. by apply elem_of_map_to_list in Hin.
    + intros (vs & HG & Hv). right. exists vs. split; [|done].
      by apply elem_of_map_to_list.
  - intros tau. unfold init_pheromone.
    assert (∀ l (ph : gmap (node * node) num),
              (∀ e x, ph !! e = Some x → x = c_0_01) →
              ∀ e x,
                fold_left
                  (fun ph uvs => fold_left (fun ph v => <[(uvs.1, v) := c_0_01]> ph) uvs.2 ph)
                  l ph !! e = Some x → x = c_0_01) as Hall.
    { induction l as [|[u' vs] l IH]; intros ph Hph; simpl; [done|].
      apply IH. clear IH. revert ph Hph.
      induction vs as [|w vs IHv]; intros ph Hph; simpl; [done|].
      apply IHv. intros e x. destruct (decide ((u', w) = e)) as [<-|Hne].
      - rewrite lookup_insert_eq. by intros [= <-].
      - rewrite lookup_insert_ne by done. apply Hph. }
    apply Hall. intros e x. by rewrite lookup_empty.
Qed.

(** ** The occupancy ledger *)

Lemma claim_all_in (steps : route) (oc : gmap (nat * node) bool)
    (k : nat * node) :
  k ∈ steps → claim_all steps oc !! k = Some true.
Proof.
  unfold claim_all. revert oc. induction steps as [|x steps IH]; intros oc Hin.
  - by apply elem_of_nil in Hin.
  - simpl. destruct (decide (k ∈ steps)) as [Hk|Hk]; [by apply IH|].
    apply elem_of_cons in Hin as [->|?]; [|done].
    clear IH. revert oc. induction steps as [|y steps IH]; intros oc; simpl.
    + apply lookup_insert_eq.
    + apply not_elem_of_cons in Hk as [Hne Hk].
      rewrite insert_insert_ne by done. by apply IH.
Qed.

Lemma claim_all_not_in (steps : route) (oc : gmap (nat * node) bool)
    (k : nat * node) :
  k ∉ steps → claim_all steps oc !! k = oc !! k.
Proof.
  unfold claim_all. revert oc. induction steps as [|x steps IH]; intros oc Hk; [done|].
  apply not_elem_of_cons in Hk as [Hne Hk]. simpl. rewrite IH by done.
  by rewrite lookup_insert_ne.
Qed.

Lemma claim_all_lookup (steps : route) (oc : gmap (nat * node) bool)
    (k : nat * node) :
  claim_all steps oc !! k = if decide (k ∈ steps) then Some true else oc !! k.
Proof.
  case_decide; [by apply claim_all_in|by apply claim_all_not_in].
Qed.

(** X3: When [build_route_single] returns, the ledger holds [True] for every
    [(timestep, node)] pair of the route and is unchanged elsewhere: the
    claims of agents routed earlier are kept. *)
Theorem route_claims_recorded {A : Arith} {P : Power A} {R : RandomSource A}
    {C : GaCore A} (fuel : nat) (start mid end_ : node)
    (oc : gmap (nat * node) bool) (s : ACO_MultiAgent A) (g : rng)
    (ruta : route) (oc' : gmap (nat * node) bool) (s' : ACO_MultiAgent A)
    (g' : rng) (k : nat * node) :
  build_route_single fuel start mid end_ oc s g = Ok (ruta, oc', s', g') →
  oc' !! k = if decide (k ∈ ruta) then Some true else oc !! k.
Proof.
  intros H. apply build_route_single_Ok in H as (_ & -> & _).
  apply claim_all_lookup.
Qed.

(** Witness: the round trip in the corridor with one earlier claim. *)
Lemma route_claims_recorded_witness :
  ∃ oc' : gmap (nat * node) bool,
    oc' !! (1, a0) = Some true ∧ oc' !! (7, c0) = Some true ∧ oc' !! (2, b0) = None.
Proof.
  destruct (Ok_of_route
              (build_route_single 5 a0 b0 a0 (<[(7, c0) := true]> ∅)
                 (exact_aco corridor [a0] [b0] [a0] 1 1) seed0)
              [(0, b0); (1, a0)]) as (oc' & s' & g' & E).
  { vm_compute. reflexivity. }
  exists oc'. split; [|split].
  - by rewrite (route_claims_recorded _ _ _ _ _ _ _ _ _ _ _ (1, a0) E).
  - by rewrite (route_claims_recorded _ _ _ _ _ _ _ _ _ _ _ (7, c0) E).
  - by rewrite (route_claims_recorded _ _ _ _ _ _ _ _ _ _ _ (2, b0) E).
Defined.

(** ** The pheromone table during construction *)

(** Every edge of the graph has an entry in the pheromone table. *)
Definition covered {A : Arith} (s : ACO_MultiAgent A) : Prop :=
  ∀ u v, edge (G s) u v → is_Some (pheromone s !! (u, v)).

Section ReadOnly.
Context {A : Arith} {P : Power A} {R : RandomSource A} {C : GaCore A}.

Lemma choose_weights_covered u t oc vecinos probs total s g r s' g' :
  (∀ v, v ∈ vecinos → is_Some (pheromone s !! (u, v))) →
  choose_weights u t oc vecinos probs total s g = Ok (r, s', g') → s' = s.
Proof.
  revert probs total. induction vecinos as [|v rest IH]; intros probs total Hcov; simpl.
  - by intros [= _ <- _].
  - destruct (Hcov v ltac:(left)) as [tau Htau].
    unfold bind at 1. unfold pheromone_get. rewrite Htau.
    unfold bind, get_self. apply IH. intros w Hw. apply Hcov. by right.
Qed.

Lemma choose_next_covered u t oc s g v s' g' :
  covered s → choose_next u t oc s g = Ok (v, s', g') → s' = s.
Proof.
  intros Hcov H. unfold choose_next in H.
  apply bind_Ok in H as (vecinos & s1 & g1 & HG & H).
  apply G_get_Ok in HG as (HG & -> & ->).
  apply bind_Ok in H as ([probs total] & s2 & g2 & Hw & H).
  apply choose_weights_covered in Hw as ->.
  2:{ intros w Hw'. apply Hcov. by exists vecinos. }
  destruct (match vecinos with [] => true | _ :: _ => eqb total (of_Z 0) end).
  { by apply random_choice_Ok in H as [_ ->]. }
  apply bind_Ok in H as (r & s3 & g3 & Hr & H).
  unfold random in Hr. destruct (random_random g2) as [r' g'']. injection Hr as -> <- ->.
  destruct (choose_pick _ _ _); [by injection H as _ <- _|].
  destruct (last vecinos); [by injection H as _ <- _|done].
Qed.

Lemma walk_covered fuel target curr t ruta oc s g r s' g' :
  covered s → walk fuel target curr t ruta oc s g = Ok (r, s', g') → s' = s.
Proof.
  intros Hcov. revert curr t ruta oc g. induction fuel as [|fuel IH];
    intros curr t ruta oc g; simpl; case_bool_decide as Hc; try done.
  - by intros [= _ <- _].
  - by intros [= _ <- _].
  - intros H. apply bind_Ok in H as (nxt & s1 & g1 & Hn & H).
    apply choose_next_covered in Hn as ->; [|done]. by apply IH in H.
Qed.

Lemma build_route_single_covered fuel start mid end_ oc s g r s' g' :
  covered s → build_route_single fuel start mid end_ oc s g = Ok (r, s', g') → s' = s.
Proof.
  intros Hcov H. unfold build_route_single in H.
  apply bind_Ok in H as ([[t1 r1] oc1] & s1 & g1 & H1 & H).
  apply walk_covered in H1 as ->; [|done].
  apply bind_Ok in H as ([[t2 r2] oc2] & s2 & g2 & H2 & H).
  apply walk_covered in H2 as ->; [|done]. by injection H as _ <- _.
Qed.

Lemma build_agents_covered fuel idxs rutas oc s g r s' g' :
  covered s → build_agents fuel idxs rutas oc s g = Ok (r, s', g') → s' = s.
Proof.
  intros Hcov. revert rutas oc g. induction idxs as [|i idxs IH]; intros rutas oc g; simpl.
  - by intros [= _ <- _].
  - intros H. apply bind_Ok in H as (s0 & s1 & g1 & [= <- <- <-] & H).
    apply bind_Ok in H as (x1 & s1 & g1 & H1 & H). apply index_Ok in H1 as [-> ->].
    apply bind_Ok in H as (x2 & s1 & g1 & H2 & H). apply index_Ok in H2 as [-> ->].
    apply bind_Ok in H as (x3 & s1 & g1 & H3 & H). apply index_Ok in H3 as [-> ->].
    apply bind_Ok in H as ([ruta oc'] & s1 & g1 & H4 & H).
    apply build_route_single_covered in H4 as ->; [|done]. by apply IH in H.
Qed.

Lemma build_solution_multi_covered fuel s g r s' g' :
  covered s → build_solution_multi fuel s g = Ok (r, s', g') → s' = s.
Proof.
  intros Hcov H. unfold build_solution_multi in H.
  apply bind_Ok in H as (s0 & s1 & g1 & [= <- <- <-] & H).
  by apply build_agents_covered in H.
Qed.

Lemma build_candidates_covered fuel n acc s g cands s' g' :
  covered s → build_candidates fuel n acc s g = Ok (cands, s', g') → s' = s.
Proof.
  intros Hcov. revert acc g. induction n as [|n IH]; intros acc g; simpl.
  - by intros [= _ <- _].
  - intros H. apply bind_Ok in H as (rutas & s1 & g1 & Hb & H).
    apply build_solution_multi_covered in Hb as ->; [|done].
    apply bind_Ok in H as (s0 & s2 & g2 & [= <- <- <-] & H).
    destruct (score_solution s rutas) as [[sc d] cf]. by apply IH in H.
Qed.

Lemma cycle_covered (s : ACO_MultiAgent A) (c : num * list route) :
  covered s → covered (cycle s c).
Proof.
  intros Hcov u v He. unfold cycle.
  rewrite reinforce_lookup, evaporate_lookup.
  destruct (Hcov u v He) as [tau ->]. simpl.
  destruct (traversals _ _); simpl; by eapply mk_is_Some.
Qed.

End ReadOnly.

(** The object [__init__] builds has a trail for every graph edge. *)
Lemma init_covered {A : Arith} G0 st pk dr al be rh q na it ms wd wc vb :
  covered (@init A G0 st pk dr al be rh q na it ms wd wc vb).
Proof. intros u v He. by apply init_pheromone_keys. Qed.

(** X4: While the candidates of an iteration are constructed and scored the
    object is not modified, provided every graph edge has a trail (as after
    [__init__]): the reads of the [defaultdict] insert nothing, and the
    pheromone table is the same for every ant of the iteration. *)
Theorem construction_reads_only {A : Arith} {P : Power A} {R : RandomSource A}
    {C : GaCore A} (fuel n : nat) (acc : list (num * list route))
    (s : ACO_MultiAgent A) (g : rng) (cands : list (num * list route))
    (s' : ACO_MultiAgent A) (g' : rng) :
  covered s →
  build_candidates fuel n acc s g = Ok (cands, s', g') → s' = s.
Proof. apply build_candidates_covered. Qed.

(** Witness: two ants on the corridor round trip. *)
Lemma construction_reads_only_witness :
  ∃ cands g',
    build_candidates 5 2 [] (exact_aco corridor [a0] [b0] [a0] 2 1) seed0
    = Ok (cands, exact_aco corridor [a0] [b0] [a0] 2 1, g').
Proof.
  destruct (Ok_of_is_ok
              (build_candidates 5 2 [] (exact_aco corridor [a0] [b0] [a0] 2 1) seed0))
    as ([[cands s'] g'] & E).
  { vm_compute. reflexivity. }
  exists cands, g'.
  rewrite <- (construction_reads_only 5 2 [] _ seed0 cands s' g' (init_covered _ _ _ _ _ _ _ _ _ _ _ _ _ _) E) at 2.
  exact E.
Defined.

(** X5: An evaporate/reinforce cycle keeps a trail for every graph edge, so the
    table stays complete over the whole run. *)
Theorem cycle_keeps_edges {A : Arith} (s : ACO_MultiAgent A)
    (cycles : list (num * list route)) :
  covered s → covered (fold_left cycle cycles s).
Proof.
  revert s. induction cycles as [|c cycles IH]; intros s Hcov; [done|].
  simpl. apply IH. by apply cycle_covered.
Qed.

(** Witness: the three cycles of the corridor. *)
Lemma cycle_keeps_edges_witness :
  covered (fold_left cycle three_cycles (exact_aco corridor [a0] [b0] [a0] 1 3)).
Proof. apply cycle_keeps_edges. apply init_covered. Defined.

(** ** The routes of a solution *)

(** The route of agent [i] was built by [build_route_single] between the
    agent's endpoints, with the reservations [oc] in place. *)
Definition planned {A : Arith} {P : Power A} {R : RandomSource A} {C : GaCore A}
    (fuel : nat) (s : ACO_MultiAgent A) (i : nat)
    (oc : gmap (nat * node) bool) (ruta : route) : Prop :=
  ∃ st pk dr si gi oc' si' gi',
    starts s !! i = Some st ∧ pickups s !! i = Some pk ∧ drops s !! i = Some dr ∧
    frame s si ∧
    build_route_single fuel st pk dr oc si gi = Ok (ruta, oc', si', gi').

Section SolutionFacts.
Context {A : Arith} {P : Power A} {R : RandomSource A} {C : GaCore A}.

Lemma claim_all_app (a b : route) oc :
  claim_all (a ++ b) oc = claim_all b (claim_all a oc).
Proof. apply fold_left_app. Qed.

Lemma index_Some {X : Type} (l : list X) i (s : ACO_MultiAgent A) (g : rng) x s' g' :
  index l i s g = Ok (x, s', g') → l !! i = Some x.
Proof. unfold index. destruct (l !! i); [|done]. by intros [= ->]. Qed.

Lemma frame_endpoints (s s' : ACO_MultiAgent A) :
  frame s s' →
  starts s' = starts s ∧ pickups s' = pickups s ∧ drops s' = drops s.
Proof. intros ->. by destruct s. Qed.

Lemma build_agents_planned fuel idxs rutas oc s0 s g r s' g' :
  frame s0 s →
  build_agents fuel idxs rutas oc s g = Ok (r, s', g') →
  ∃ new, r = rutas ++ new ∧ length new = length idxs ∧
    ∀ j i ruta, idxs !! j = Some i → new !! j = Some ruta →
      planned fuel s0 i (claim_all (concat (take j new)) oc) ruta.
Proof.
  revert rutas oc s g. induction idxs as [|i idxs IH]; intros rutas oc s g Hf; simpl.
  - intros [= <- _ _]. exists []. rewrite app_nil_r. split_and!; [done..|].
    intros j i ruta Hj. by rewrite lookup_nil in Hj.
  - intros H. apply bind_Ok in H as (s1 & s2 & g2 & [= <- <- <-] & H).
    destruct (frame_endpoints _ _ Hf) as (Est & Epk & Edr).
    apply bind_Ok in H as (st & s2 & g2 & H1 & H).
    apply index_Ok in H1 as H1'. destruct H1' as [-> ->]. apply index_Some in H1.
    apply bind_Ok in H as (pk & s2 & g2 & H2 & H).
    apply index_Ok in H2 as H2'. destruct H2' as [-> ->]. apply index_Some in H2.
    apply bind_Ok in H as (dr & s2 & g2 & H3 & H).
    apply index_Ok in H3 as H3'. destruct H3' as [-> ->]. apply index_Some in H3.
    apply bind_Ok in H as ([ruta oc1] & s2 & g2 & H4 & H).
    apply build_route_single_Ok in H4 as H4'. destruct H4' as (_ & -> & Hf2).
    apply IH in H as (new & -> & Hlen & Hnew); [|by eapply frame_trans].
    exists (ruta :: new). rewrite <- app_assoc. split_and!; [done|simpl; lia|].
    intros [|j] i' ruta' Hj Hr; simpl in *.
    + injection Hj as <-. injection Hr as <-.
      exists st, pk, dr, s, g, (claim_all ruta oc), s2, g2.
      by rewrite <- Est, <- Epk, <- Edr.
    + rewrite claim_all_app. by eapply Hnew.
Qed.

Lemma build_solution_multi_planned fuel s g rutas s' g' :
  build_solution_multi fuel s g = Ok (rutas, s', g') →
  length rutas = num_agents s ∧
  ∀ i ruta, rutas !! i = Some ruta →
    planned fuel s i (claim_all (concat (take i rutas)) ∅) ruta.
Proof.
  unfold build_solution_multi. intros H.
  apply bind_Ok in H as (s0 & s1 & g1 & [= <- <- <-] & H).
  apply (build_agents_planned _ _ _ _ s) in H as (new & -> & Hlen & Hnew);
    [|apply frame_refl].
  rewrite length_seq in Hlen. simpl. split; [done|].
  intros i ruta Hi. eapply Hnew; [|done].
  apply lookup_seq. split; [done|]. rewrite <- Hlen. by eapply lookup_lt_Some.
Qed.

End SolutionFacts.

(** X6: A solution that [build_solution_multi] returns holds one route per
    agent, in the order of the agents; the route of agent [i] leads from
    [starts[i]] over [pickups[i]] to [drops[i]] along edges of the graph,
    with the time steps 0, 1, 2, ... *)
Theorem solution_one_route_per_agent {A : Arith} {P : Power A}
    {R : RandomSource A} {C : GaCore A}
    (fuel : nat) (s : ACO_MultiAgent A) (g : rng)
    (rutas : list route) (s' : ACO_MultiAgent A) (g' : rng) :
  build_solution_multi fuel s g = Ok (rutas, s', g') →
  length rutas = num_agents s ∧
  ∀ i ruta, rutas !! i = Some ruta →
    ∃ st pk dr,
      starts s !! i = Some st ∧ pickups s !! i = Some pk ∧
      drops s !! i = Some dr ∧ route_shape (G s) st pk dr ruta.
Proof.
  intros H. apply build_solution_multi_planned in H as [Hlen Hpl].
  split; [done|]. intros i ruta Hi.
  destruct (Hpl i ruta Hi) as (st & pk & dr & si & gi & oc' & si' & gi' &
                               Hst & Hpk & Hdr & Hf & Hb).
  exists st, pk, dr. split_and!; [done..|].
  apply build_route_single_Ok in Hb as (Hsh & _). by rewrite <- (frame_G _ _ Hf).
Qed.

(** Two agents on the 2x2 grid. *)
Definition two_agents : ACO_MultiAgent exact :=
  exact_aco square [(0, 0); (1, 1)]%Z [(0, 1); (1, 0)]%Z [(1, 1); (0, 0)]%Z 1 1.

(** The draws that take both agents of [two_agents] straight to their
    pickup and drop cells. *)
Definition seed1 : @rng exact (scripted exact) :=
  ([Qmake 1 10; Qmake 9 10; Qmake 9 10; Qmake 1 10], []).

(** The solution built from [seed1]. *)
Definition two_routes : list route :=
  [[(0, (0, 1)%Z); (1, (1, 1)%Z)]; [(0, (1, 0)%Z); (1, (0, 0)%Z)]].

(** Witness: the two agents of the 2x2 grid get one route each. *)
Lemma solution_one_route_per_agent_witness :
  length two_routes = 2 ∧
  ∀ i ruta, two_routes !! i = Some ruta →
    ∃ st pk dr,
      starts two_agents !! i = Some st ∧ pickups two_agents !! i = Some pk ∧
      drops two_agents !! i = Some dr ∧ route_shape square st pk dr ruta.
Proof.
  destruct (Ok_of_returned (build_solution_multi 2 two_agents seed1) two_routes)
    as (s' & g' & E).
  { vm_compute. reflexivity. }
  exact (solution_one_route_per_agent 2 two_agents seed1 two_routes s' g' E).
Defined.

(** X7: The agents plan one after the other on one reservation table: the
    route of agent [i] is built with exactly the pairs (time step, node)
    recorded on the routes of the agents before it marked as claimed. The
    first agent plans on an empty table, and no agent sees the claims of a
    later one. *)
Theorem agents_plan_in_order {A : Arith} {P : Power A}
    {R : RandomSource A} {C : GaCore A}
    (fuel : nat) (s : ACO_MultiAgent A) (g : rng)
    (rutas : list route) (s' : ACO_MultiAgent A) (g' : rng) (i : nat) (ruta : route) :
  build_solution_multi fuel s g = Ok (rutas, s', g') →
  rutas !! i = Some ruta →
  ∃ oc,
    planned fuel s i oc ruta ∧
    ∀ k, oc !! k = if decide (k ∈ concat (take i rutas)) then Some true else None.
Proof.
  intros H Hi. apply build_solution_multi_planned in H as [_ Hpl].
  exists (claim_all (concat (take i rutas)) ∅). split; [by apply Hpl|].
  intros k. by rewrite claim_all_lookup, lookup_empty.
Qed.

(** Witness: the second agent of the 2x2 grid plans on the claims of the
    first. *)
Lemma agents_plan_in_order_witness :
  ∃ oc : gmap (nat * node) bool,
    planned 2 two_agents 1 oc [(0, (1, 0)%Z); (1, (0, 0)%Z)] ∧
    ∀ k, oc !! k = if decide (k ∈ concat (take 1 two_routes))
                   then Some true else None.
Proof.
  destruct (Ok_of_returned (build_solution_multi 2 two_agents seed1) two_routes)
    as (s' & g' & E).
  { vm_compute. reflexivity. }
  exact (agents_plan_in_order 2 two_agents seed1 two_routes s' g' 1
           [(0, (1, 0)%Z); (1, (0, 0)%Z)] E eq_refl).
Defined.

(** X8: When the first agent has no start, pickup or drop cell (a list shorter
    than [num_agents]), [build_solution_multi] raises [IndexError] before
    any step is made. *)
Theorem missing_endpoint_raises {A : Arith} {P : Power A}
    {R : RandomSource A} {C : GaCore A}
    (fuel : nat) (s : ACO_MultiAgent A) (g : rng) :
  0 < num_agents s →
  starts s !! 0 = None ∨ pickups s !! 0 = None ∨ drops s !! 0 = None →
  build_solution_multi fuel s g = Raise IndexError.
Proof.
  intros Hn Hmiss. unfold build_solution_multi, bind at 1, get_self.
  destruct (num_agents s) as [|n]; [lia|]. simpl.
  unfold bind at 1, get_self. unfold bind at 1, index.
  destruct (starts s !! 0) as [st|]; [|done]. simpl.
  unfold bind at 1. destruct (pickups s !! 0) as [pk|]; [|done]. simpl.
  unfold bind at 1. destruct (drops s !! 0) as [dr|]; [|done].
  by destruct Hmiss as [?|[?|?]].
Qed.

(** Witness: one start cell and no pickup cell. *)
Lemma missing_endpoint_raises_witness :
  build_solution_multi 5 (exact_aco corridor [a0] [] [a0] 1 1) seed0
  = Raise IndexError.
Proof.
  apply missing_endpoint_raises; [vm_compute; lia|]. right. left. reflexivity.
Defined.



(** ** The step bound of the loops *)

Section Fuel.
Context {A : Arith} {P : Power A} {R : RandomSource A} {C : GaCore A}.

Lemma bind_more {X Y : Type} (m m' : M X) (k k' : X → M Y) s g :
  (m s g ≠ OutOfFuel → m' s g = m s g) →
  (∀ x s1 g1, k x s1 g1 ≠ OutOfFuel → k' x s1 g1 = k x s1 g1) →
  bind m k s g ≠ OutOfFuel → bind m' k' s g = bind m k s g.
Proof.
  intros Hm Hk. unfold bind. destruct (m s g) as [[[x s1] g1]|e|] eqn:E.
  - rewrite Hm by done. apply Hk.
  - by rewrite Hm.
  - done.
Qed.

Lemma walk_more fuel fuel' target curr t ruta oc s g :
  fuel ≤ fuel' →
  walk fuel target curr t ruta oc s g ≠ OutOfFuel →
  walk fuel' target curr t ruta oc s g = walk fuel target curr t ruta oc s g.
Proof.
  revert fuel' curr t ruta oc s g.
  induction fuel as [|fuel IH]; intros [|fuel'] curr t ruta oc s g Hle; simpl;
    case_bool_decide as Hc; try done; try lia.
  apply bind_more; [done|]. intros nxt s1 g1. apply IH. lia.
Qed.

Lemma build_route_single_more fuel fuel' start mid end_ oc s g :
  fuel ≤ fuel' →
  build_route_single fuel start mid end_ oc s g ≠ OutOfFuel →
  build_route_single fuel' start mid end_ oc s g
  = build_route_single fuel start mid end_ oc s g.
Proof.
  intros Hle. unfold build_route_single. apply bind_more; [by apply walk_more|].
  intros [[t1 r1] oc1] s1 g1. apply bind_more; [by apply walk_more|done].
Qed.

Lemma build_agents_more fuel fuel' idxs rutas oc s g :
  fuel ≤ fuel' →
  build_agents fuel idxs rutas oc s g ≠ OutOfFuel →
  build_agents fuel' idxs rutas oc s g = build_agents fuel idxs rutas oc s g.
Proof.
  intros Hle. revert rutas oc s g.
  induction idxs as [|i idxs IH]; intros rutas oc s g; simpl; [done|].
  apply bind_more; [done|]. intros self s1 g1.
  apply bind_more; [done|]. intros st s2 g2.
  apply bind_more; [done|]. intros pk s3 g3.
  apply bind_more; [done|]. intros dr s4 g4.
  apply bind_more; [by apply build_route_single_more|].
  intros [ruta oc'] s5 g5. apply IH.
Qed.

Lemma build_solution_multi_more fuel fuel' s g :
  fuel ≤ fuel' →
  build_solution_multi fuel s g ≠ OutOfFuel →
  build_solution_multi fuel' s g = build_solution_multi fuel s g.
Proof.
  intros Hle. unfold build_solution_multi. apply bind_more; [done|].
  intros self s1 g1. by apply build_agents_more.
Qed.

Lemma build_candidates_more fuel fuel' n acc s g :
  fuel ≤ fuel' →
  build_candidates fuel n acc s g ≠ OutOfFuel →
  build_candidates fuel' n acc s g = build_candidates fuel n acc s g.
Proof.
  intros Hle. revert acc s g. induction n as [|n IH]; intros acc s g; simpl; [done|].
  apply bind_more; [by apply build_solution_multi_more|]. intros rutas s1 g1.
  apply bind_more; [done|]. intros self s2 g2.
  destruct (score_solution self rutas) as [[sc d] cf]. apply IH.
Qed.

Lemma iteration_more fuel fuel' it st s g :
  fuel ≤ fuel' →
  iteration fuel it st s g ≠ OutOfFuel →
  iteration fuel' it st s g = iteration fuel it st s g.
Proof.
  intros Hle. unfold iteration. apply bind_more; [done|]. intros self s1 g1.
  apply bind_more; [by apply build_candidates_more|done].
Qed.

Lemma run_loop_more fuel fuel' its st s g :
  fuel ≤ fuel' →
  run_loop fuel its st s g ≠ OutOfFuel →
  run_loop fuel' its st s g = run_loop fuel its st s g.
Proof.
  intros Hle. revert st s g. induction its as [|it its IH]; intros st s g; simpl; [done|].
  apply bind_more; [by apply iteration_more|]. intros st1 s1 g1. apply IH.
Qed.

End Fuel.

(** The step bound of the model has no influence on an outcome: a run that
    ends within a bound, with a result or with an exception, ends the same
    way under every larger bound. *)
Lemma run_more {A : Arith} {P : Power A} {R : RandomSource A}
    {C : GaCore A} (fuel fuel' : nat) (s : ACO_MultiAgent A) (g : rng) :
  fuel ≤ fuel' →
  run fuel s g ≠ OutOfFuel →
  run fuel' s g = run fuel s g.
Proof.
  intros Hle. unfold run. apply bind_more; [|done].
  unfold run_full. apply bind_more; [done|]. intros self s1 g1.
  by apply run_loop_more.
Qed.

(** ** The whole run *)

Section RunFacts.
Context {A : Arith} {P : Power A} {R : RandomSource A} {C : GaCore A}.

Lemma cycle_verbose (s : ACO_MultiAgent A) (c : num * list route) :
  verbose (cycle s c) = verbose s.
Proof. by destruct s. Qed.

Lemma run_loop_trace fuel its st s g st' s' g' :
  covered s →
  run_loop fuel its st s g = Ok (st', s', g') →
  ∃ hist bests,
    history st' = history st ++ hist ∧
    Forall2 (fun cands b => iteration_best cands = Some b) hist bests ∧
    length bests = length its ∧
    s' = fold_left cycle bests s ∧
    printed st' = printed st ++ (if verbose s then zip its bests.*1 else []).
Proof.
  revert st s g. induction its as [|it its IH]; intros st s g Hcov; simpl.
  - intros [= <- <- <-]. exists [], []. rewrite !app_nil_r.
    split_and!; try done. destruct (verbose s); by rewrite app_nil_r.
  - intros H. apply bind_Ok in H as (st1 & s1 & g1 & Hit & H).
    apply iteration_Ok in Hit as (cands & s0 & best & Hb & Hbest & -> & _ & Hh & Hp).
    apply build_candidates_covered in Hb as ->; [|done].
    apply IH in H as (hist & bests & Hh' & Hall & Hlen & -> & Hp');
      [|by apply cycle_covered].
    exists (cands :: hist), (best :: bests). rewrite Hh', Hh, <- app_assoc.
    split_and!; [done|by constructor|simpl; lia|done|].
    rewrite Hp', Hp, cycle_verbose. destruct (verbose s); [|done].
    by rewrite <- app_assoc.
Qed.

End RunFacts.

(** X11: A run that completes on an object whose table has every graph edge (as
    [__init__] leaves it) changes the object by the evaporate/reinforce
    cycles of the iteration-bests alone, one per iteration and in order;
    constructing and scoring the ants leaves no trace.  With [verbose] set
    it prints one line per iteration, numbered from 1, with the score of
    that iteration's best (not of the best so far); otherwise nothing. *)
Theorem run_trace {A : Arith} {P : Power A} {R : RandomSource A} {C : GaCore A}
    (fuel : nat) (s : ACO_MultiAgent A) (g : rng)
    (st : run_state) (s' : ACO_MultiAgent A) (g' : rng) :
  covered s →
  run_full fuel s g = Ok (st, s', g') →
  ∃ bests,
    Forall2 (fun cands b => iteration_best cands = Some b) (history st) bests ∧
    length bests = Z.to_nat (iterations s) ∧
    s' = fold_left cycle bests s ∧
    printed st = (if verbose s then zip (iteration_range s) bests.*1 else []).
Proof.
  intros Hcov H. unfold run_full in H.
  apply bind_Ok in H as (s0 & s1 & g1 & [= <- <- <-] & H).
  apply run_loop_trace in H as (hist & bests & Hh & Hall & Hlen & -> & Hp); [|done].
  simpl in Hh, Hp. subst hist. exists bests.
  rewrite iteration_range_length in Hlen. by split_and!.
Qed.

(** Witness: two iterations of two ants on the corridor round trip. *)
Lemma run_trace_witness :
  ∃ (st : run_state) (s' : ACO_MultiAgent exact) (bests : list (num * list route)),
    Forall2 (fun cands b => iteration_best cands = Some b) (history st) bests ∧
    length bests = 2 ∧
    s' = fold_left cycle bests (exact_aco corridor [a0] [b0] [a0] 2 2) ∧
    printed st = zip [1%Z; 2%Z] bests.*1.
Proof.
  destruct (Ok_of_is_ok (run_full 5 (exact_aco corridor [a0] [b0] [a0] 2 2) seed0))
    as ([[st s'] g'] & E).
  { vm_compute. reflexivity. }
  exists st, s'.
  exact (run_trace 5 (exact_aco corridor [a0] [b0] [a0] 2 2) seed0 st s' g'
           (init_covered _ _ _ _ _ _ _ _ _ _ _ _ _ _) E).
Defined.

(** ** Ties between candidates *)

Section TieFacts.
Context {A : Arith} {OL : OrderLaws A}.

(** The head of [sorted] is the first minimum of [seen]. *)
Definition head_first (seen sorted : list (num * list route)) : Prop :=
  match sorted with
  | [] => seen = []
  | h :: _ =>
      minimal_in h.1 seen ∧
      ∃ pre post, seen = pre ++ h :: post ∧ ∀ c, c ∈ pre → ltb h.1 c.1 = true
  end.

Lemma insert_by_score_head_first c seen sorted :
  head_first seen sorted → head_first (seen ++ [c]) (insert_by_score c sorted).
Proof.
  destruct sorted as [|h l]; simpl.
  - intros ->. split.
    + intros c' Hc'. apply elem_of_cons in Hc' as [->|Hc']; [apply ltb_irrefl|].
      by apply elem_of_nil in Hc'.
    + exists [], []. split; [done|]. intros c' Hc'. by apply elem_of_nil in Hc'.
  - intros (Hmin & pre & post & -> & Hpre). destruct (ltb c.1 h.1) eqn:E; simpl.
    + assert (∀ x, x ∈ pre ++ h :: post → ltb c.1 x.1 = true) as Hlt.
      { intros x Hx. destruct (ltb c.1 x.1) eqn:E'; [done|].
        rewrite (ltb_negtrans _ _ _ E' (Hmin x Hx)) in E. done. }
      split.
      * intros c' Hc'. apply elem_of_app in Hc' as [Hc'|Hc'].
        -- destruct (ltb c'.1 c.1) eqn:E'; [|done].
           pose proof (ltb_trans _ _ _ E' (Hlt c' Hc')) as Hirr.
           by rewrite ltb_irrefl in Hirr.
        -- apply elem_of_cons in Hc' as [->|Hc']; [apply ltb_irrefl|].
           by apply elem_of_nil in Hc'.
      * exists (pre ++ h :: post), []. split; [done|]. exact Hlt.
    + split.
      * intros c' Hc'. apply elem_of_app in Hc' as [Hc'|Hc']; [by apply Hmin|].
        apply elem_of_cons in Hc' as [->|Hc']; [done|]. by apply elem_of_nil in Hc'.
      * exists pre, (post ++ [c]). split; [|done].
        by rewrite <- app_assoc.
Qed.

Lemma sort_by_score_head_first l : head_first l (sort_by_score l).
Proof.
  unfold sort_by_score.
  assert (∀ seen acc, head_first seen acc →
            head_first (seen ++ l)
              (fold_left (fun sorted c => insert_by_score c sorted) l acc)) as H.
  { induction l as [|h l IH]; intros seen acc Hacc; simpl.
    - by rewrite app_nil_r.
    - replace (seen ++ h :: l) with ((seen ++ [h]) ++ l) by by rewrite <- app_assoc.
      apply IH. by apply insert_by_score_head_first. }
  by apply (H [] []).
Qed.

End TieFacts.


(** Two solutions of score 1 after one of score 2. *)
Definition tied : list (@num exact * list route) :=
  [(inject_Z 2, []); (inject_Z 1, [[(0, b0)]]); (inject_Z 1, [])].

Definition tied_best : @num exact * list route := (inject_Z 1, [[(0, b0)]]).


(** ** The animation of the routes *)

(** The inner loop of the preprocessing of [animate_aco_routes] for one
    route: the dictionary [d] of the route and the running [max_t]. *)
Definition preprocess_route (max_t : nat) (ruta : route) : nat * gmap nat node :=
  fold_left
    (fun acc step =>
       (if acc.1 <? step.1 then step.1 else acc.1, <[step.1 := step.2]> acc.2))
    ruta (max_t, ∅).

(** The preprocessing loop: [max_t] and [rutas_por_agente]. *)
Definition preprocess (rutas : list route) : nat * list (gmap nat node) :=
  fold_left
    (fun acc ruta =>
       let '(max_t, d) := preprocess_route acc.1 ruta in
       (max_t, acc.2 ++ [d]))
    rutas (0, []).

(** The artists that [update] changes: the data of one marker per agent
    (none as created) and the frame number shown by the text. *)
Record artists : Type := mkArtists {
  puntos : list (option (Z * Z));
  time_text : option nat
}.

(** [update(frame_t)]: an agent with an entry [(y, x)] for the frame gets
    the marker data [([x], [y])]; the others keep theirs. *)
Definition update (rutas_por_agente : list (gmap nat node)) (fig : artists)
    (frame_t : nat) : artists :=
  mkArtists
    (zip_with
       (fun pos_dict p =>
          match pos_dict !! frame_t with
          | Some (y, x) => Some (x, y)
          | None => p
          end)
       rutas_por_agente (puntos fig))
    (Some frame_t).

(** The marker data [([x], [y])] for a node [(y, x)]. *)
Definition marker_data (nodo : node) : Z * Z := (nodo.2, nodo.1).

(** [frames=range(0, max_t + 1)]. *)
Definition frames (rutas : list route) : list nat :=
  seq 0 (S (preprocess rutas).1).

(** The artists after the frames [0..k] have been drawn in order. *)
Definition play (rutas : list route) (k : nat) : artists :=
  fold_left (update (preprocess rutas).2) (seq 0 (S k))
    (mkArtists (replicate (length rutas) None) None).

Section AnimationFacts.

Definition dict_of (ruta : route) (d : gmap nat node) : gmap nat node :=
  fold_left (fun d step => <[step.1 := step.2]> d) ruta d.

Lemma preprocess_route_fold m d ruta :
  fold_left
    (fun acc step =>
       (if acc.1 <? step.1 then step.1 else acc.1, <[step.1 := step.2]> acc.2))
    ruta (m, d)
  = (fold_left Nat.max ruta.*1 m, dict_of ruta d).
Proof.
  revert m d. induction ruta as [|[t n] ruta IH]; intros m d; simpl; [done|].
  rewrite IH. unfold dict_of. simpl. f_equal. f_equal.
  destruct (Nat.ltb_spec m t); lia.
Qed.

Lemma fold_max_seq n a m :
  fold_left Nat.max (seq a n) m = if decide (n = 0) then m else Nat.max m (a + n - 1).
Proof.
  revert a m. induction n as [|n IH]; intros a m; simpl; [done|].
  rewrite IH. repeat case_decide; lia.
Qed.

Lemma dict_of_lookup ruta a d t :
  ruta.*1 = seq a (length ruta) →
  dict_of ruta d !! t
  = if decide (a ≤ t < a + length ruta) then ruta.*2 !! (t - a) else d !! t.
Proof.
  revert a d. induction ruta as [|[t0 n0] ruta IH]; intros a d; simpl.
  - intros _. case_decide; [lia|done].
  - intros [= -> Hseq]. unfold dict_of in *. simpl. rewrite (IH (S a)) by done.
    repeat case_decide; try lia.
    + replace (t - a) with (S (t - S a)) by lia. done.
    + assert (t = a) as -> by lia. rewrite lookup_insert_eq.
      by replace (a - a) with 0 by lia.
    + rewrite lookup_insert_ne by lia. done.
Qed.

Lemma preprocess_fold rutas m acc :
  fold_left
    (fun acc ruta =>
       let '(max_t, d) := preprocess_route acc.1 ruta in
       (max_t, acc.2 ++ [d]))
    rutas (m, acc)
  = (fold_left (fun (m : nat) (ruta : route) => fold_left Nat.max ruta.*1 m) rutas m,
     acc ++ ((fun ruta : route => dict_of ruta ∅) <$> rutas)).
Proof.
  revert m acc. induction rutas as [|ruta rutas IH]; intros m acc; simpl.
  - by rewrite app_nil_r.
  - unfold preprocess_route. rewrite preprocess_route_fold, IH.
    by rewrite <- app_assoc.
Qed.

Lemma frames_count rutas m :
  (∀ ruta, ruta ∈ rutas → ruta.*1 = seq 0 (length ruta)) →
  S (fold_left (fun (m : nat) (ruta : route) => fold_left Nat.max ruta.*1 m) rutas m)
  = Nat.max (S m) (max_list (length <$> rutas)).
Proof.
  revert m. induction rutas as [|ruta rutas IH]; intros m Hall; simpl; [lia|].
  rewrite IH by (intros r Hr; apply Hall; by right).
  rewrite (Hall ruta) by left. rewrite fold_max_seq.
  change (list_fmap _ _ length rutas) with (length <$> rutas).
  case_decide; lia.
Qed.

(** One marker over the frames [0..k]. *)
Lemma marker_play (ruta : route) (d : gmap nat node) k :
  (∀ t, d !! t = ruta.*2 !! t) →
  fold_left
    (fun p frame_t =>
       match d !! frame_t with
       | Some (y, x) => Some (x, y)
       | None => p
       end)
    (seq 0 (S k)) None
  = marker_data <$> ruta.*2 !! (k `min` (length ruta - 1)).
Proof.
  intros Hd. induction k as [|k IH].
  - simpl. rewrite Hd.
    by destruct (ruta.*2 !! 0) as [[y x]|].
  - rewrite seq_S, fold_left_app, IH. cbn [fold_left Nat.add]. rewrite Hd.
    destruct (ruta.*2 !! S k) as [[y x]|] eqn:E.
    + apply lookup_lt_Some in E as Hlt. rewrite length_fmap in Hlt.
      rewrite (Nat.min_l (S k)) by lia. by rewrite E.
    + apply lookup_ge_None in E. rewrite length_fmap in E.
      f_equal. f_equal. lia.
Qed.

Lemma update_play ds ts fig i d p :
  ds !! i = Some d → puntos fig !! i = Some p →
  puntos (fold_left (update ds) ts fig) !! i
  = Some (fold_left
            (fun p frame_t =>
               match d !! frame_t with
               | Some (y, x) => Some (x, y)
               | None => p
               end) ts p).
Proof.
  intros Hd. revert fig p. induction ts as [|t ts IH]; intros fig p Hp; simpl; [done|].
  apply IH. simpl. by rewrite lookup_zip_with, Hd, Hp.
Qed.

Lemma update_text ds ts fig k :
  time_text (fold_left (update ds) (ts ++ [k]) fig) = Some k.
Proof. by rewrite fold_left_app. Qed.

End AnimationFacts.

(** X13: The animation of routes numbered as [build_route_single] numbers them
    (time steps 0, 1, 2, ...) has as many frames as the longest route has
    steps, and a single frame when every route is empty.  After the frames
    [0..k] the text shows [k] and the marker of agent [i] lies on the node
    of step [k] of its route, given as (column, row); once the route is
    over the marker stays on its last node, and an agent with an empty
    route never gets a marker. *)
Theorem animation_shows_routes (rutas : list route) :
  (∀ ruta, ruta ∈ rutas → ruta.*1 = seq 0 (length ruta)) →
  length (frames rutas) = 1 `max` max_list (length <$> rutas) ∧
  ∀ k, time_text (play rutas k) = Some k ∧
    ∀ i ruta, rutas !! i = Some ruta →
      puntos (play rutas k) !! i
      = Some (marker_data <$> ruta.*2 !! (k `min` (length ruta - 1))).
Proof.
  intros Hall. unfold frames, play, preprocess. rewrite preprocess_fold.
  cbn [fst snd app].
  split; [|intros k; split].
  - rewrite length_seq. by apply frames_count.
  - rewrite seq_S. apply update_text.
  - intros i ruta Hi.
    rewrite (update_play _ _ _ i (dict_of ruta ∅) None).
    + f_equal. apply marker_play. intros t.
      rewrite (dict_of_lookup ruta 0) by (apply Hall; by eapply list_elem_of_lookup_2).
      rewrite lookup_empty, Nat.sub_0_r. case_decide as Ht; [done|].
      symmetry. apply lookup_ge_None. rewrite length_fmap. lia.
    + by apply (list_lookup_fmap_Some_2 (fun r : route => dict_of r ∅)).
    + simpl. apply lookup_replicate_2. by eapply lookup_lt_Some.
Qed.

(** Witness: the routes of the two agents of the 2x2 grid. *)
Lemma animation_shows_routes_witness :
  length (frames two_routes) = 2 ∧
  ∀ k, time_text (play two_routes k) = Some k ∧
    ∀ i ruta, two_routes !! i = Some ruta →
      puntos (play two_routes k) !! i
      = Some (marker_data <$> ruta.*2 !! (k `min` (length ruta - 1))).
Proof.
  apply (animation_shows_routes two_routes).
  intros ruta Hr. unfold two_routes in Hr.
  apply elem_of_cons in Hr as [->|Hr]; [reflexivity|].
  apply elem_of_cons in Hr as [->|Hr]; [reflexivity|].
  by apply elem_of_nil in Hr.
Defined.

(** ** Which claims a step looks at *)

(** The tables [oc] and [oc'] claim the same nodes at every time step from
    [t] on. *)
Definition agree_from (t : nat) (oc oc' : gmap (nat * node) bool) : Prop :=
  ∀ t' v, t ≤ t' → is_Some (oc !! (t', v)) ↔ is_Some (oc' !! (t', v)).

Section ClaimFacts.
Context {A : Arith} {P : Power A} {R : RandomSource A} {C : GaCore A}.

Lemma penal_agree t oc oc' v :
  (is_Some (oc !! (t, v)) ↔ is_Some (oc' !! (t, v))) →
  penal t oc v = penal t oc' v.
Proof.
  intros H. unfold penal. repeat case_bool_decide; tauto.
Qed.

Lemma bind_ext {X Y : Type} (m m' : M X) (k k' : X → M Y) s g :
  m s g = m' s g → (∀ x s1 g1, k x s1 g1 = k' x s1 g1) →
  bind m k s g = bind m' k' s g.
Proof.
  intros Hm Hk. unfold bind. rewrite Hm.
  by destruct (m' s g) as [[[x s1] g1]| |].
Qed.

Lemma choose_weights_agree u t oc oc' vecinos probs total s g :
  (∀ v, is_Some (oc !! (t, v)) ↔ is_Some (oc' !! (t, v))) →
  choose_weights u t oc vecinos probs total s g
  = choose_weights u t oc' vecinos probs total s g.
Proof.
  intros H. revert probs total s g.
  induction vecinos as [|v rest IH]; intros probs total s g; simpl; [done|].
  apply bind_ext; [done|]. intros tau s1 g1. unfold bind, get_self.
  rewrite (penal_agree t oc oc' v) by apply H. apply IH.
Qed.

Lemma choose_next_agree u t oc oc' s g :
  (∀ v, is_Some (oc !! (t, v)) ↔ is_Some (oc' !! (t, v))) →
  choose_next u t oc s g = choose_next u t oc' s g.
Proof.
  intros H. unfold choose_next. apply bind_ext; [done|]. intros vecinos s1 g1.
  apply bind_ext; [by apply choose_weights_agree|done].
Qed.

Lemma agree_from_insert t k oc oc' :
  agree_from t oc oc' → agree_from t (<[k := true]> oc) (<[k := true]> oc').
Proof.
  intros H t' v Ht. destruct (decide (k = (t', v))) as [->|Hne].
  - rewrite !lookup_insert_eq. split; by eauto.
  - rewrite !lookup_insert_ne by done. by apply H.
Qed.

Lemma agree_from_S t oc oc' : agree_from t oc oc' → agree_from (S t) oc oc'.
Proof. intros H t' v Ht. apply H. lia. Qed.

(** The outcomes of a leg on two tables: the same, up to the table. *)
Definition same_leg (t : nat)
    (r r' : result (nat * route * gmap (nat * node) bool * ACO_MultiAgent A * rng))
    : Prop :=
  match r, r' with
  | Ok (t1, r1, o1, s1, g1), Ok (t2, r2, o2, s2, g2) =>
      t1 = t2 ∧ r1 = r2 ∧ s1 = s2 ∧ g1 = g2 ∧ agree_from t o1 o2
  | Raise e, Raise e' => e = e'
  | OutOfFuel, OutOfFuel => True
  | _, _ => False
  end.

Lemma walk_agree fuel target curr t0 t ruta oc oc' s g :
  t0 ≤ t → agree_from t0 oc oc' →
  same_leg t0 (walk fuel target curr t ruta oc s g)
              (walk fuel target curr t ruta oc' s g).
Proof.
  revert curr t ruta oc oc' s g.
  induction fuel as [|fuel IH]; intros curr t ruta oc oc' s g Hle Hag; simpl;
    case_bool_decide as Hc; try done.
  unfold bind. rewrite <- (choose_next_agree curr t oc oc') by (intros v; by apply Hag).
  destruct (choose_next curr t oc s g) as [[[nxt s1] g1]| |]; [|done..].
  apply IH; [lia|]. by apply agree_from_insert.
Qed.

Lemma build_route_single_agree fuel start mid end_ oc oc' s g :
  agree_from 0 oc oc' →
  match build_route_single fuel start mid end_ oc s g,
        build_route_single fuel start mid end_ oc' s g with
  | Ok (r1, o1, s1, g1), Ok (r2, o2, s2, g2) =>
      r1 = r2 ∧ s1 = s2 ∧ g1 = g2 ∧ agree_from 0 o1 o2
  | Raise e, Raise e' => e = e'
  | OutOfFuel, OutOfFuel => True
  | _, _ => False
  end.
Proof.
  intros Hag. unfold build_route_single, bind.
  pose proof (walk_agree fuel mid start 0 0 [] oc oc' s g ltac:(lia) Hag) as H1.
  unfold same_leg in H1.
  destruct (walk fuel mid start 0 [] oc s g) as [[[[[t1 r1] o1] s1] g1]| |];
    destruct (walk fuel mid start 0 [] oc' s g) as [[[[[t1' r1'] o1'] s1'] g1']| |];
    try done.
  destruct H1 as (<- & <- & <- & <- & Hag1).
  pose proof (walk_agree fuel end_ mid 0 t1 r1 o1 o1' s1 g1 ltac:(lia) Hag1) as H2.
  unfold same_leg in H2.
  destruct (walk fuel end_ mid t1 r1 o1 s1 g1) as [[[[[t2 r2] o2] s2] g2]| |];
    destruct (walk fuel end_ mid t1 r1 o1' s1 g1) as [[[[[t2' r2'] o2'] s2'] g2']| |];
    try done.
  by destruct H2 as (<- & <- & <- & <- & Hag2).
Qed.

End ClaimFacts.

(** X14: A step chosen for the time step [t] looks at the claims of [t] only:
    two reservation tables that claim the same nodes at [t] give the same
    next node, the same object and the same random state (or the same
    exception), whatever they hold for other time steps. *)
Theorem step_reads_claims_of_its_time {A : Arith} {P : Power A}
    {R : RandomSource A} {C : GaCore A}
    (u : node) (t : nat) (oc oc' : gmap (nat * node) bool)
    (s : ACO_MultiAgent A) (g : rng) :
  (∀ v, is_Some (oc !! (t, v)) ↔ is_Some (oc' !! (t, v))) →
  choose_next u t oc s g = choose_next u t oc' s g.
Proof. apply choose_next_agree. Qed.

(** Witness: a claim on [b0] for time step 1 does not change the step
    chosen at time step 0. *)
Lemma step_reads_claims_of_its_time_witness :
  choose_next a0 0 ∅ (exact_aco corridor [a0] [b0] [a0] 1 1) seed0
  = choose_next a0 0 (<[(1, b0) := true]> ∅)
      (exact_aco corridor [a0] [b0] [a0] 1 1) seed0.
Proof.
  apply step_reads_claims_of_its_time. intros v.
  rewrite lookup_insert_ne by (intros [= ?]; lia). reflexivity.
Defined.

(** X15: A leg that starts at time step [t] is not influenced by claims for
    earlier time steps: on two tables that claim the same nodes from [t] on
    it takes the same steps and ends the same way.  As every claim an agent
    records is for a time step that is over when its next step is chosen,
    the claims of an agent never act on its own route, only on the routes
    of the agents planned after it. *)
Theorem leg_ignores_past_claims {A : Arith} {P : Power A}
    {R : RandomSource A} {C : GaCore A}
    (fuel : nat) (target curr : node) (t : nat) (ruta : route)
    (oc oc' : gmap (nat * node) bool) (s : ACO_MultiAgent A) (g : rng) :
  agree_from t oc oc' →
  same_leg t (walk fuel target curr t ruta oc s g)
             (walk fuel target curr t ruta oc' s g).
Proof. intros Hag. by apply walk_agree. Qed.

(** Witness: the way back on the corridor, with and without the claim of
    the way out. *)
Lemma leg_ignores_past_claims_witness :
  same_leg 1
    (walk 5 a0 b0 1 [(0, b0)] ∅ (exact_aco corridor [a0] [b0] [a0] 1 1) seed0)
    (walk 5 a0 b0 1 [(0, b0)] (<[(0, b0) := true]> ∅)
       (exact_aco corridor [a0] [b0] [a0] 1 1) seed0).
Proof.
  apply leg_ignores_past_claims. intros t' v Ht.
  rewrite lookup_insert_ne by (intros [= ? ?]; lia). reflexivity.
Defined.
